(** * Shallow embedding of the shipit-nx [ship] executor

    [libs/shipit-nx/src/lib/features/ship/impl.ts] ([shipIt]) together with
    the collaborators it imports from [../../phases], [../../configs] and
    [../../utils] ([runPhases], the seven phases, [ShipConfig],
    [findDependencies], [findDependents], [findProjectNames]). *)

From Stdlib Require Import String List Bool Arith ZArith Lia.
From Stdlib Require Import Relations.Relation_Operators.
Import ListNotations.
Open Scope string_scope.
Open Scope list_scope.

(** ** Promises

    An awaited JavaScript promise settles either with a value or with a
    rejection carrying the thrown error. *)

Inductive Exn : Type :=
| ProjectNotFound (name : string)
| Thrown (message : string).

Inductive Settled (A : Type) : Type :=
| Resolved (a : A)
| Rejected (e : Exn).
Arguments Resolved {A} a.
Arguments Rejected {A} e.

Definition settled_bind {A B : Type} (m : Settled A) (k : A -> Settled B) : Settled B :=
  match m with
  | Resolved a => k a
  | Rejected e => Rejected e
  end.

Notation "x <- m ;; k" := (settled_bind m (fun x => k))
  (at level 61, m at next level, right associativity).

Definition is_resolved {A : Type} (m : Settled A) : bool :=
  match m with Resolved _ => true | Rejected _ => false end.

(** ** Project graph

    A mapping from project name to the names of the projects it directly
    depends on (the first binding of a name wins, as a lookup does). *)

Definition Graph := list (string * list string).

Definition graph_keys (g : Graph) : list string := map fst g.

Fixpoint deps_of (g : Graph) (x : string) : list string :=
  match g with
  | [] => []
  | (k, ds) :: g' => if String.eqb k x then ds else deps_of g' x
  end.

(** The inverted edges: the projects whose dependencies name [x]. *)
Definition dependents_of (g : Graph) (x : string) : list string :=
  filter (fun k => existsb (String.eqb x) (deps_of g k)) (graph_keys g).

(** Every name the graph mentions, as a key or as a dependency. *)
Definition graph_names (g : Graph) : list string :=
  graph_keys g ++ concat (map snd g).

(** "[a] depends on [b]". *)
Definition depends_on (g : Graph) (a b : string) : Prop := In b (deps_of g a).

(** ** Visited-set traversal

    Modelled from the spec: the traversal behind [findDependencies] and
    [findDependents] (their source, [utils/find-dependencies.util] and
    [utils/find-dependents.util], is not among the files): a worklist walk that
    marks each project visited once and never expands a visited project again,
    so diamonds are deduplicated and cycles stop.  The [fuel] argument only
    makes the recursion structural; it returns the visited set and what is
    left of the worklist. *)

Fixpoint traverse (next : string -> list string) (fuel : nat)
    (visited stack : list string) : list string * list string :=
  match fuel with
  | O => (visited, stack)
  | S fuel' =>
      match stack with
      | [] => (visited, [])
      | x :: rest =>
          if in_dec string_dec x visited
          then traverse next fuel' visited rest
          else traverse next fuel' (x :: visited) (next x ++ rest)
      end
  end.

(** One step per worklist entry is enough: see [traverse_fuel_enough]. *)
Definition traversal_fuel (g : Graph) : nat :=
  let n := length (graph_names g) in 1 + S n * n.

Definition dependencies_traversal (g : Graph) (p : string) : list string * list string :=
  traverse (deps_of g) (traversal_fuel g) [] [p].

Definition dependents_traversal (g : Graph) (p : string) : list string * list string :=
  traverse (dependents_of g) (traversal_fuel g) [] [p].

(** Modelled from the spec: [findDependencies] (in [utils/find-dependencies.util]):
    the projects transitively reachable from [projectName] along depends-on
    edges, without [projectName] itself; a name missing from the graph is a
    resolution error. *)
Definition findDependencies (g : Graph) (projectName : string) : Settled (list string) :=
  if in_dec string_dec projectName (graph_keys g)
  then Resolved (remove string_dec projectName (fst (dependencies_traversal g projectName)))
  else Rejected (ProjectNotFound projectName).

(** Modelled from the spec: [findDependents] (in [utils/find-dependents.util]):
    the same traversal over the inverted edges. *)
Definition findDependents (g : Graph) (projectName : string) : Settled (list string) :=
  if in_dec string_dec projectName (graph_keys g)
  then Resolved (remove string_dec projectName (fst (dependents_traversal g projectName)))
  else Rejected (ProjectNotFound projectName).

(** Modelled from the spec: [findProjectNames] (in [utils/find-project-names.util]):
    every project of the workspace, in the workspace's order. *)
Definition findProjectNames {A : Type} (projects : list (string * A)) : list string :=
  map fst projects.

(** ** Invocation inputs ([ShipExecutorOptions], nx's [ExecutorContext]) *)

Module ShipExecutorOptions.
Record t : Type := mk {
  repo : string;
  branch : string;
  maxWarnings : option nat;
  dryRun : option bool
}.
End ShipExecutorOptions.

Module ExecutorContext.
(** [context.workspace.projects[name]]: the project's configuration. *)
Record ProjectConfiguration : Type := mkProject { root_of : string }.

Record t : Type := mk {
  root : string;
  projectName : option string;
  projects : list (string * ProjectConfiguration)
}.
End ExecutorContext.

Fixpoint lookup_project (name : string)
    (projects : list (string * ExecutorContext.ProjectConfiguration))
    : option ExecutorContext.ProjectConfiguration :=
  match projects with
  | [] => None
  | (k, pc) :: rest => if String.eqb k name then Some pc else lookup_project name rest
  end.

(** ** [ShipConfig] *)

Module ShipConfig.
(** The single-project keys of the object literal, spread in together. *)
Record SingleProject : Type := mkSingle {
  project : string;
  projectRoot : option string;
  dependencies : list string;
  dependents : list string;
  workspace : list string
}.

(** The object passed to [new ShipConfig(...)]: [single] is [None] when the
    spread adds no key, [Some] when it adds all five. *)
Record Options : Type := mkOptions {
  opt_sourcePath : string;
  opt_maxWarnings : option nat;
  opt_destinationRepoURL : string;
  opt_destinationBranch : string;
  opt_single : option SingleProject
}.

Record t : Type := mk {
  sourcePath : string;
  maxWarnings : nat;
  destinationRepoURL : string;
  destinationBranch : string;
  single : option SingleProject
}.
End ShipConfig.

(** ** Phases and the world they act on *)

Inductive Phase : Type :=
| ClonePhase
| CorruptionCheckPhase
| CleanPhase
| SyncPhase
| VerifyRepoPhase
| PostProcessPhase
| PushPhase.

Definition Phase_eq_dec (p q : Phase) : {p = q} + {p <> q}.
Proof. decide equality. Defined.

(** The destination working copy: path and content of each file. *)
Definition WorkState := list (string * string).

(** The collaborators [shipIt] relies on and that are not its code: the nx
    project-graph provider, the [ShipConfig] constructor's default and checks,
    and what each phase does to the working copy (git, the filesystem). *)
Record Env : Type := mkEnv {
  env_createProjectGraphAsync : Settled Graph;
  env_default_maxWarnings : nat;
  env_config_error : ShipConfig.Options -> option Exn;
  env_phase : Phase -> ShipConfig.t -> WorkState -> Settled WorkState;
  env_warnings : WorkState -> nat;
  env_missing_required : WorkState -> bool
}.

(** Modelled from the spec: the [ShipConfig] constructor (in
    [configs/ship.config]): it keeps the fields it is given, defaults an
    absent [maxWarnings], and may throw. *)
Definition new_ShipConfig (env : Env) (o : ShipConfig.Options) : Settled ShipConfig.t :=
  match env_config_error env o with
  | Some e => Rejected e
  | None =>
      Resolved {| ShipConfig.sourcePath := ShipConfig.opt_sourcePath o;
                  ShipConfig.maxWarnings :=
                    match ShipConfig.opt_maxWarnings o with
                    | Some n => n
                    | None => env_default_maxWarnings env
                    end;
                  ShipConfig.destinationRepoURL := ShipConfig.opt_destinationRepoURL o;
                  ShipConfig.destinationBranch := ShipConfig.opt_destinationBranch o;
                  ShipConfig.single := ShipConfig.opt_single o |}
  end.

(** Modelled from the spec: [VerifyRepoPhase] (in [phases]): it fails on a
    missing required file or on more detected warnings than [maxWarnings]. *)
Definition VerifyRepoPhase_run (env : Env) (cfg : ShipConfig.t) (st : WorkState)
    : Settled WorkState :=
  if env_missing_required env st || Nat.ltb (ShipConfig.maxWarnings cfg) (env_warnings env st)
  then Rejected (Thrown "VerifyRepo")
  else Resolved st.

Definition run_phase (env : Env) (p : Phase) (cfg : ShipConfig.t) (st : WorkState)
    : Settled WorkState :=
  match p with
  | VerifyRepoPhase => VerifyRepoPhase_run env cfg st
  | _ => env_phase env p cfg st
  end.

(** One entry of the observable trace: the phase that ran, the working copy
    it started from, and whether it completed. *)
Record PhaseRun : Type := mkRun {
  run_phase_of : Phase;
  run_state : WorkState;
  run_completed : bool
}.

(** Modelled from the spec: [runPhases] (in [phases]): each phase awaited in
    turn, on the working copy its predecessor left; the first rejection stops
    the loop and rejects the returned promise. *)
Fixpoint runPhases (env : Env) (phases : list Phase) (cfg : ShipConfig.t)
    (st : WorkState) : Settled unit * list PhaseRun :=
  match phases with
  | [] => (Resolved tt, [])
  | p :: rest =>
      match run_phase env p cfg st with
      | Rejected e => (Rejected e, [mkRun p st false])
      | Resolved st' =>
          let '(r, tr) := runPhases env rest cfg st' in (r, mkRun p st true :: tr)
      end
  end.

(** ** [shipIt] *)

Record ShipResult : Type := mkResult { success : bool }.

(** [context.projectName && context.projectName !== 'workspace'] *)
Definition names_project (projectName : option string) : bool :=
  match projectName with
  | Some name => negb (String.eqb name "") && negb (String.eqb name "workspace")
  | None => false
  end.

(** The conditional spread of the single-project keys (lines 34-42). *)
Definition single_project_fields (g : Graph) (context : ExecutorContext.t)
    : Settled (option ShipConfig.SingleProject) :=
  match ExecutorContext.projectName context with
  | Some name =>
      if names_project (Some name) then
        dependencies <- findDependencies g name ;;
        dependents <- findDependents g name ;;
        Resolved (Some {|
          ShipConfig.project := name;
          ShipConfig.projectRoot :=
            option_map ExecutorContext.root_of
              (lookup_project name (ExecutorContext.projects context));
          ShipConfig.dependencies := dependencies;
          ShipConfig.dependents := dependents;
          ShipConfig.workspace := findProjectNames (ExecutorContext.projects context) |})
      else Resolved None
  | None => Resolved None
  end.

(** The object literal of lines 29-43. *)
Definition shipConfigOptions (options : ShipExecutorOptions.t) (context : ExecutorContext.t)
    (single : option ShipConfig.SingleProject) : ShipConfig.Options :=
  {| ShipConfig.opt_sourcePath := ExecutorContext.root context;
     ShipConfig.opt_maxWarnings := ShipExecutorOptions.maxWarnings options;
     ShipConfig.opt_destinationRepoURL := ShipExecutorOptions.repo options;
     ShipConfig.opt_destinationBranch := ShipExecutorOptions.branch options;
     ShipConfig.opt_single := single |}.

(** Lines 27-43: everything [shipIt] does before [runPhases]. *)
Definition prepareConfig (env : Env) (options : ShipExecutorOptions.t)
    (context : ExecutorContext.t) : Settled ShipConfig.t :=
  projectGraph <- env_createProjectGraphAsync env ;;
  single <- single_project_fields projectGraph context ;;
  new_ShipConfig env (shipConfigOptions options context single).

(** Lines 46-54. *)
Definition shipPhases (options : ShipExecutorOptions.t) : list Phase :=
  [ClonePhase; CorruptionCheckPhase; CleanPhase; SyncPhase; VerifyRepoPhase;
   PostProcessPhase]
  ++ (match ShipExecutorOptions.dryRun options with
      | Some true => []
      | _ => [PushPhase]
      end).

(** The empty scratch directory the pipeline starts from. *)
Definition initial_state : WorkState := [].

(** [shipIt]: the settled promise and the phases that ran. *)
Definition shipIt (env : Env) (options : ShipExecutorOptions.t)
    (context : ExecutorContext.t) : Settled ShipResult * list PhaseRun :=
  match prepareConfig env options context with
  | Rejected e => (Rejected e, [])
  | Resolved config =>
      let '(r, tr) := runPhases env (shipPhases options) config initial_state in
      (match r with
       | Resolved _ => Resolved {| success := true |}
       | Rejected _ => Resolved {| success := false |}
       end, tr)
  end.

Definition phases_run (tr : list PhaseRun) : list Phase := map run_phase_of tr.

(** [b] is a direct successor of [a] for [next]. *)
Definition edge (next : string -> list string) (a b : string) : Prop := In b (next a).

(** How many names of [U] the traversal has not visited yet. *)
Definition unvisited (U visited : list string) : nat :=
  length (filter (fun u => if in_dec string_dec u visited then false else true) U).

(** [shipIt]'s environment with another outcome of [createProjectGraphAsync]. *)
Definition with_projectGraph (env : Env) (graph : Settled Graph) : Env :=
  {| env_createProjectGraphAsync := graph;
     env_default_maxWarnings := env_default_maxWarnings env;
     env_config_error := env_config_error env;
     env_phase := env_phase env;
     env_warnings := env_warnings env;
     env_missing_required := env_missing_required env |}.

(** The same options with another [dryRun]. *)
Definition with_dryRun (options : ShipExecutorOptions.t) (dryRun : option bool)
    : ShipExecutorOptions.t :=
  ShipExecutorOptions.mk (ShipExecutorOptions.repo options) (ShipExecutorOptions.branch options)
    (ShipExecutorOptions.maxWarnings options) dryRun.

(** ** [libs/shared/util-std-result/src/map.async.ts]

    [Result] comes from [./result], which is not among the files: a value is
    either [ok(x)] (tested by [isOk], read as [.ok]) or [fail(e)] (tested by
    [isFailure], read as [.failure]).  An awaited [MaybePromise] is a
    [Settled] value; a [mapFn] that throws or rejects gives a [Rejected]. *)

Inductive Result (O F : Type) : Type :=
| Ok (ok : O)
| Failure (failure : F).
Arguments Ok {O F} ok.
Arguments Failure {O F} failure.

Definition mapOkAsync {I O F : Type} (mapFn : I -> Settled O)
    (input : Settled (Result I F)) : Settled (Result O F) :=
  awaitedInput <- input ;;
  match awaitedInput with
  | Ok i => result <- mapFn i ;; Resolved (Ok result)
  | Failure f => Resolved (Failure f)
  end.

Definition mapFailureAsync {O I F : Type} (mapFn : I -> Settled F)
    (input : Settled (Result O I)) : Settled (Result O F) :=
  awaitedInput <- input ;;
  match awaitedInput with
  | Failure i => result <- mapFn i ;; Resolved (Failure result)
  | Ok o => Resolved (Ok o)
  end.

(** ** [libs/fscommerce/src/Commerce/CommerceProvider.tsx]

    The component that [withCommerceData(fetchData, initialData)] wraps around
    a component.  The data is read through [any] casts as a paged list: its
    [page] and [minPage] are numbers or [undefined] (here integers, [None] for
    [undefined]) and its [products] an array or [undefined].  A step returns
    the component state after it and what it did, in order: calls of
    [fetchData], of the optional [onDataLoaded] and [onDataError] props, and
    of [console.error]. *)

Module CommerceProvider.

Record PageData : Type := mkPage {
  page : option Z;
  minPage : option Z;
  products : option (list string)
}.

Record State : Type := mkState {
  commerceData : option PageData;
  isLoading : bool
}.

(** Which of the optional callbacks the props carry. *)
Record Props : Type := mkProps {
  onDataLoaded : bool;
  onDataError : bool
}.

Inductive Event : Type :=
| FetchData
| DataLoaded (data : PageData)
| DataError (error : Exn)
| ConsoleError (error : Exn).

(** [a > b] and [a < b] on numbers or [undefined] ([undefined] compares false). *)
Definition js_gt (a b : option Z) : bool :=
  match a, b with Some x, Some y => Z.gtb x y | _, _ => false end.

Definition js_lt (a b : option Z) : bool :=
  match a, b with Some x, Some y => Z.ltb x y | _, _ => false end.

(** [[...xs]]: spreading [undefined] throws a [TypeError]. *)
Definition spread (xs : option (list string)) : Settled (list string) :=
  match xs with Some l => Resolved l | None => Rejected (Thrown "TypeError") end.

(** The constructor, given [initialData ? initialData(props) : undefined]. *)
Definition initialState (initial : option PageData) : State := mkState initial false.

Definition handleLoadingError (props : Props) (error : Exn) (st : State) : State * list Event :=
  (mkState (commerceData st) false,
   (if onDataError props then [DataError error] else []) ++ [ConsoleError error]).

Definition setData (props : Props) (data : option PageData) (st : State) : State * list Event :=
  (mkState data false,
   match data with
   | Some d => if onDataLoaded props then [DataLoaded d] else []
   | None => []
   end).

(** [loadData(data)]; [fetched] is how [fetchData(...)] settles. *)
Definition loadData (props : Props) (fetched : Settled (option PageData))
    (data : option PageData) (st : State) : State * list Event :=
  match data with
  | Some d => setData props (Some d) st
  | None =>
      let st0 := mkState (commerceData st) true in
      match fetched with
      | Resolved loaded => let '(st1, ev) := setData props loaded st0 in (st1, FetchData :: ev)
      | Rejected e => let '(st1, ev) := handleLoadingError props e st0 in (st1, FetchData :: ev)
      end
  end.

(** The [.then] callback of [loadMore] (lines 233-259).  It writes [minPage]
    into the state's [commerceData] object and into [data] in place, so it
    returns the [data] object as later readers of [request] see it.  A
    [TypeError] thrown by a spread is caught by the [.catch] after it. *)
Definition loadMore_onData (props : Props) (data : option PageData) (st : State)
    : option PageData * State * list Event :=
  match data, commerceData st with
  | Some d, Some cd =>
      let cd1 := match minPage cd with
                 | None => mkPage (page cd) (page cd) (products cd)
                 | Some _ => cd
                 end in
      let d1 := mkPage (page d) (minPage cd1) (products d) in
      let st1 := mkState (Some cd1) (isLoading st) in
      if js_gt (page d1) (page cd1) then
        match (xs <- spread (products cd1) ;; ys <- spread (products d1) ;; Resolved (xs ++ ys)) with
        | Resolved merged =>
            let d2 := mkPage (page d1) (minPage d1) (Some merged) in
            let '(st2, ev) := setData props (Some d2) st1 in (Some d2, st2, ev)
        | Rejected e => let '(st2, ev) := handleLoadingError props e st1 in (Some d1, st2, ev)
        end
      else if js_lt (page d1) (minPage cd1) then
        match (ys <- spread (products d1) ;; xs <- spread (products cd1) ;; Resolved (ys ++ xs)) with
        | Resolved merged =>
            let d2 := mkPage (page cd1) (page d1) (Some merged) in
            let '(st2, ev) := setData props (Some d2) st1 in (Some d2, st2, ev)
        | Rejected e => let '(st2, ev) := handleLoadingError props e st1 in (Some d1, st2, ev)
        end
      else (Some d1, st1, [])
  | _, _ => (data, st, [])
  end.

(** [loadMore(productQuery)]: the promise it returns is [request] itself. *)
Definition loadMore (props : Props) (fetched : Settled (option PageData)) (st : State)
    : Settled (option PageData) * State * list Event :=
  let st0 := mkState (commerceData st) true in
  match fetched with
  | Resolved data =>
      let '(data', st1, ev) := loadMore_onData props data st0 in
      (Resolved data', st1, FetchData :: ev)
  | Rejected e =>
      let '(st1, ev) := handleLoadingError props e st0 in (Rejected e, st1, FetchData :: ev)
  end.

Definition componentDidMount (props : Props) (fetched : Settled (option PageData)) (st : State)
    : State * list Event :=
  match commerceData st with
  | Some d => (st, if onDataLoaded props then [DataLoaded d] else [])
  | None => loadData props fetched None st
  end.

(** The paging window of loaded data: both ends are numbers, [minPage <= page]. *)
Definition window_ok (cd : PageData) : Prop :=
  exists q m, page cd = Some q /\ minPage cd = Some m /\ (m <= q)%Z.

End CommerceProvider.

(** ** [libs/fscomponents/src/components/TabbedContainer.tsx]

    Indices are integers; a rendered element is left abstract. *)

Module TabbedContainer.

Record Tab (E : Type) : Type := mkTab {
  tab : E;
  activeTab : E;
  renderContent : E
}.
Arguments mkTab {E} tab activeTab renderContent.
Arguments tab {E} t.
Arguments activeTab {E} t.
Arguments renderContent {E} t.

(** [useState(props.initialIndex || 0)] *)
Definition initialSelectedIndex (initialIndex : option Z) : Z :=
  match initialIndex with Some i => i | None => 0 end.

(** [props.tabs.map((tab, index) => selectedIndex === index ? tab.activeTab : tab.tab)] *)
Fixpoint renderTabs_from {E : Type} (selectedIndex index : Z) (tabs : list (Tab E)) : list E :=
  match tabs with
  | [] => []
  | t :: rest =>
      (if Z.eqb selectedIndex index then activeTab t else tab t)
      :: renderTabs_from selectedIndex (index + 1) rest
  end.

Definition renderTabs {E : Type} (selectedIndex : Z) (tabs : list (Tab E)) : list E :=
  renderTabs_from selectedIndex 0 tabs.

(** [props.tabs[selectedIndex]?.renderContent()] *)
Definition content {E : Type} (selectedIndex : Z) (tabs : list (Tab E)) : option E :=
  if Z.ltb selectedIndex 0 then None
  else option_map renderContent (nth_error tabs (Z.to_nat selectedIndex)).

Definition render {E : Type} (selectedIndex : Z) (tabs : list (Tab E)) : list E * option E :=
  (renderTabs selectedIndex tabs, content selectedIndex tabs).

(** [selectTab(index)()]: the new selected index and the calls of [onTabSwitch]. *)
Definition selectTab (hasOnTabSwitch : bool) (index : Z) (selectedIndex : Z) : Z * list Z :=
  (index, if hasOnTabSwitch then [index] else []).

End TabbedContainer.

(** ** [SerializableImagePlaceholder] (an unnamed source file of the repository) *)

Module SerializableImagePlaceholder.

(** Whether [onPress] is given, and [href]. *)
Record Props : Type := mkProps {
  onPress : bool;
  href : option string
}.

Inductive Effect : Type :=
| OnPressCalled (href : option string)
| NavigatorOpened (href : string).

Definition truthy (s : option string) : bool :=
  match s with Some s => negb (String.eqb s "") | None => false end.

(** [handlePress(href)()] *)
Definition handlePress (props : Props) (href : option string) : list Effect :=
  if onPress props then [OnPressCalled href]
  else match href with
       | Some h => if truthy (Some h) then [NavigatorOpened h] else []
       | None => []
       end.

Inductive Rendered : Type :=
| PlainImage
| Touchable (pressed : list Effect).

Definition render (props : Props) : Rendered :=
  if negb (truthy (href props) || onPress props) then PlainImage
  else Touchable (handlePress props (href props)).

End SerializableImagePlaceholder.

(** ** Sample invocations *)

Definition sample_graph : Graph := [("A", ["B"]); ("B", ["C"]); ("C", [])].

Definition sample_context (projectName : option string) : ExecutorContext.t :=
  ExecutorContext.mk "/repo" projectName
    [("A", ExecutorContext.mkProject "libs/a");
     ("B", ExecutorContext.mkProject "libs/b");
     ("C", ExecutorContext.mkProject "libs/c")].

Definition sample_options (maxWarnings : option nat) (dryRun : option bool)
    : ShipExecutorOptions.t :=
  ShipExecutorOptions.mk "git@example.com:org/a.git" "main" maxWarnings dryRun.

(** Every phase but [failing] leaves the working copy as it is; VerifyRepo sees
    [warnings] warnings and no missing file. *)
Definition sample_env (warnings : nat) (failing : option Phase) : Env :=
  mkEnv (Resolved sample_graph) 0 (fun _ => None)
    (fun p _ st =>
       match failing with
       | Some q => if Phase_eq_dec p q then Rejected (Thrown "phase failed") else Resolved st
       | None => Resolved st
       end)
    (fun _ => warnings) (fun _ => false).

(** A graph with a cycle through A and B and a name, D, that is no key. *)
Definition cyclic_graph : Graph := [("A", ["B"]); ("B", ["C"; "A"]); ("C", ["B"; "D"])].

(** * Proofs *)

Example findDependencies_chain :
  findDependencies [("A", ["B"]); ("B", ["C"]); ("C", [])] "A" = Resolved ["C"; "B"].
Proof. reflexivity. Qed.

Example findDependents_chain :
  findDependents [("A", ["B"]); ("B", ["C"]); ("C", [])] "C" = Resolved ["A"; "B"].
Proof. reflexivity. Qed.

Example findDependencies_cycle :
  findDependencies [("A", ["B"]); ("B", ["C"; "A"]); ("C", ["B"])] "A" = Resolved ["C"; "B"].
Proof. reflexivity. Qed.

(** ** The traversal: duplicates, soundness, closure, enough fuel *)

Section Traversal.
Variable next : string -> list string.

Lemma traverse_nodup :
  forall fuel visited stack, NoDup visited ->
  NoDup (fst (traverse next fuel visited stack)).
Proof.
  induction fuel as [|fuel IH]; intros visited stack Hnd; simpl; [exact Hnd|].
  destruct stack as [|x rest]; simpl; [exact Hnd|].
  destruct (in_dec string_dec x visited) as [Hin|Hout].
  - apply IH; exact Hnd.
  - apply IH; constructor; assumption.
Qed.

Lemma traverse_sound :
  forall fuel visited stack y,
  In y (fst (traverse next fuel visited stack)) ->
  In y visited \/ exists s, In s stack /\ clos_refl_trans string (edge next) s y.
Proof.
  induction fuel as [|fuel IH]; intros visited stack y Hy; simpl in Hy;
    [left; exact Hy|].
  destruct stack as [|x rest]; [left; exact Hy|].
  destruct (in_dec string_dec x visited) as [Hin|Hout].
  - destruct (IH _ _ _ Hy) as [Hv | (s & Hs & Hr)]; [left; exact Hv|].
    right; exists s; split; [right; exact Hs | exact Hr].
  - destruct (IH _ _ _ Hy) as [[<- | Hv] | (s & Hs & Hr)].
    + right; exists x; split; [left; reflexivity | apply rt_refl].
    + left; exact Hv.
    + apply in_app_or in Hs as [Hs | Hs].
      * right; exists x; split; [left; reflexivity|].
        apply rt_trans with s; [apply rt_step; exact Hs | exact Hr].
      * right; exists s; split; [right; exact Hs | exact Hr].
Qed.

Lemma traverse_closed :
  forall fuel visited stack,
  snd (traverse next fuel visited stack) = [] ->
  (forall v w, In v visited -> In w (next v) -> In w visited \/ In w stack) ->
  let R := fst (traverse next fuel visited stack) in
  (forall v, In v visited -> In v R) /\
  (forall s, In s stack -> In s R) /\
  (forall r w, In r R -> In w (next r) -> In w R).
Proof.
  induction fuel as [|fuel IH]; intros visited stack Hdone Hinv; simpl in *.
  - subst stack; repeat split; auto; [intros s []|].
    intros r w Hr Hw; destruct (Hinv r w Hr Hw) as [H|[]]; exact H.
  - destruct stack as [|x rest]; simpl in *.
    + repeat split; auto; [intros s []|].
      intros r w Hr Hw; destruct (Hinv r w Hr Hw) as [H|[]]; exact H.
    + destruct (in_dec string_dec x visited) as [Hin|Hout].
      * destruct (IH visited rest Hdone) as (HV & HS & HC).
        { intros v w Hv Hw; destruct (Hinv v w Hv Hw) as [H|[<-|H]]; auto. }
        repeat split; auto.
        intros s [<-|Hs]; auto.
      * destruct (IH (x :: visited) (next x ++ rest) Hdone) as (HV & HS & HC).
        { intros v w [<-|Hv] Hw.
          - right; apply in_or_app; left; exact Hw.
          - destruct (Hinv v w Hv Hw) as [H|[<-|H]].
            + left; right; exact H.
            + left; left; reflexivity.
            + right; apply in_or_app; right; exact H. }
        repeat split.
        -- intros v Hv; apply HV; right; exact Hv.
        -- intros s [<-|Hs]; [apply HV; left; reflexivity|].
           apply HS; apply in_or_app; right; exact Hs.
        -- exact HC.
Qed.

Lemma filter_length_mono (f h : string -> bool) (l : list string) :
  (forall u, f u = true -> h u = true) ->
  length (filter f l) <= length (filter h l).
Proof.
  intros Hfh; induction l as [|a l IHl]; cbn [filter]; [simpl; lia|].
  destruct (f a) eqn:Ef; [rewrite (Hfh a Ef); simpl; lia|].
  destruct (h a); simpl; lia.
Qed.

Lemma unvisited_lt (U : list string) (x : string) (visited : list string) :
  In x U -> ~ In x visited -> unvisited U (x :: visited) < unvisited U visited.
Proof.
  unfold unvisited; induction U as [|a l IHl]; intros Hx Hnot; [destruct Hx|].
  cbn [filter].
  destruct (in_dec string_dec a (x :: visited)) as [Ha|Ha];
  destruct (in_dec string_dec a visited) as [Hb|Hb]; cbn [length].
  - destruct Hx as [<-|Hx]; [contradiction|].
    apply IHl; assumption.
  - destruct Hx as [<-|Hx].
    + apply Nat.lt_succ_r, filter_length_mono.
      intros u; destruct (in_dec string_dec u (a :: visited)) as [H1|H1];
        destruct (in_dec string_dec u visited) as [H2|H2]; auto.
      exfalso; apply H1; right; exact H2.
    + apply Nat.lt_lt_succ_r, IHl; assumption.
  - exfalso; apply Ha; right; exact Hb.
  - destruct Hx as [<-|Hx]; [exfalso; apply Ha; left; reflexivity|].
    apply (proj1 (Nat.succ_lt_mono _ _)), IHl; assumption.
Qed.

Lemma unvisited_le (U visited : list string) : unvisited U visited <= length U.
Proof.
  unfold unvisited; induction U as [|a l IHl]; cbn [filter length]; [lia|].
  destruct (in_dec string_dec a visited); cbn [length]; lia.
Qed.

Variable U : list string.
Variable D : nat.
Hypothesis next_in_U : forall x y, In y (next x) -> In y U.
Hypothesis next_length : forall x, length (next x) <= D.

Lemma traverse_fuel_enough :
  forall fuel visited stack,
  (forall s, In s stack -> In s U) ->
  length stack + S D * unvisited U visited <= fuel ->
  snd (traverse next fuel visited stack) = [].
Proof.
  induction fuel as [|fuel IH]; intros visited stack HU Hle; simpl.
  - destruct stack; [reflexivity|simpl in Hle; lia].
  - destruct stack as [|x rest]; [reflexivity|].
    destruct (in_dec string_dec x visited) as [Hin|Hout].
    + apply IH; [intros s Hs; apply HU; right; exact Hs|simpl in Hle; lia].
    + apply IH.
      * intros s Hs; apply in_app_or in Hs as [Hs|Hs];
          [eapply next_in_U; exact Hs | apply HU; right; exact Hs].
      * pose proof (unvisited_lt U x visited (HU x (or_introl eq_refl)) Hout) as Hlt.
        pose proof (next_length x) as Hn.
        rewrite length_app; simpl in Hle.
        assert (S D * S (unvisited U (x :: visited)) <= S D * unvisited U visited)
          by (apply Nat.mul_le_mono_l; lia).
        rewrite Nat.mul_succ_r in H; lia.
Qed.
End Traversal.

(** ** Edges of the project graph *)

Lemma deps_of_in_names (g : Graph) (x y : string) :
  In y (deps_of g x) -> In y (graph_names g).
Proof.
  unfold graph_names; intros H; apply in_or_app; right.
  induction g as [|[k ds] g IH]; simpl in *; [destruct H|].
  apply in_or_app; destruct (String.eqb k x); [left; exact H | right; apply IH, H].
Qed.

Lemma deps_of_length (g : Graph) (x : string) :
  length (deps_of g x) <= length (graph_names g).
Proof.
  unfold graph_names; rewrite length_app.
  enough (length (deps_of g x) <= length (concat (map snd g))) by lia.
  induction g as [|[k ds] g IH]; simpl; [lia|].
  rewrite length_app; destruct (String.eqb k x); lia.
Qed.

Lemma deps_of_key (g : Graph) (x y : string) :
  In y (deps_of g x) -> In x (graph_keys g).
Proof.
  induction g as [|[k ds] g IH]; simpl; [tauto|].
  destruct (String.eqb k x) eqn:E; intros H.
  - left; apply String.eqb_eq; exact E.
  - right; apply IH, H.
Qed.

Lemma dependents_of_iff (g : Graph) (x y : string) :
  In y (dependents_of g x) <-> depends_on g y x.
Proof.
  unfold dependents_of, depends_on; rewrite filter_In, existsb_exists.
  split.
  - intros (_ & z & Hz & Hxz); apply String.eqb_eq in Hxz; subst z; exact Hz.
  - intros H; split; [eapply deps_of_key; exact H|].
    exists x; split; [exact H | apply String.eqb_refl].
Qed.

Lemma dependents_of_in_names (g : Graph) (x y : string) :
  In y (dependents_of g x) -> In y (graph_names g).
Proof.
  unfold dependents_of, graph_names; intros H; apply filter_In in H as [H _].
  apply in_or_app; left; exact H.
Qed.

Lemma dependents_of_length (g : Graph) (x : string) :
  length (dependents_of g x) <= length (graph_names g).
Proof.
  unfold dependents_of, graph_names; rewrite length_app.
  etransitivity; [apply filter_length_le|lia].
Qed.

Lemma key_in_names (g : Graph) (p : string) :
  In p (graph_keys g) -> In p (graph_names g).
Proof. intros H; unfold graph_names; apply in_or_app; left; exact H. Qed.

(** ** Reachability and the traversal from one project *)

Lemma clos_rt_eq_or_t {A : Type} (R : A -> A -> Prop) (x y : A) :
  clos_refl_trans A R x y -> x = y \/ clos_trans A R x y.
Proof.
  induction 1 as [x y H | x | x y z _ IH1 _ IH2].
  - right; apply t_step; exact H.
  - left; reflexivity.
  - destruct IH1 as [<-|H1]; [exact IH2|].
    destruct IH2 as [<-|H2]; [right; exact H1|].
    right; apply t_trans with y; assumption.
Qed.

Lemma clos_t_rt {A : Type} (R : A -> A -> Prop) (x y : A) :
  clos_trans A R x y -> clos_refl_trans A R x y.
Proof.
  induction 1; [apply rt_step; assumption | eapply rt_trans; eassumption].
Qed.

Lemma clos_t_transp {A : Type} (R : A -> A -> Prop) (x y : A) :
  clos_trans A R x y -> clos_trans A (fun a b => R b a) y x.
Proof.
  induction 1; [apply t_step; assumption | eapply t_trans; eassumption].
Qed.

Lemma clos_t_iff {A : Type} (R R' : A -> A -> Prop) (x y : A) :
  (forall a b, R a b <-> R' a b) ->
  clos_trans A R x y -> clos_trans A R' x y.
Proof.
  intros HR; induction 1; [apply t_step, HR; assumption | eapply t_trans; eassumption].
Qed.

Lemma remove_nodup (l : list string) (x : string) :
  NoDup l -> NoDup (remove string_dec x l).
Proof.
  induction 1 as [|a l Ha Hnd IH]; simpl; [constructor|].
  destruct (string_dec x a); [exact IH|].
  constructor; [|exact IH].
  intros Hin; apply in_remove in Hin as [Hin _]; contradiction.
Qed.

(** Walking from [p] with a fuel bound of [traversal_fuel]: the walk finishes,
    visits each project once, and visits exactly what [p] reaches. *)
Lemma traverse_from (g : Graph) (next : string -> list string) (p : string) :
  (forall x y, In y (next x) -> In y (graph_names g)) ->
  (forall x, length (next x) <= length (graph_names g)) ->
  In p (graph_names g) ->
  let t := traverse next (traversal_fuel g) [] [p] in
  snd t = [] /\ NoDup (fst t) /\
  (forall q, In q (fst t) <-> clos_refl_trans string (edge next) p q).
Proof.
  intros Hin Hlen Hp t.
  assert (Hdone : snd t = []).
  { apply (traverse_fuel_enough next (graph_names g) (length (graph_names g)) Hin Hlen).
    - intros s [<-|[]]; exact Hp.
    - pose proof (unvisited_le (graph_names g) []) as Hu.
      unfold traversal_fuel; simpl length.
      apply (Nat.mul_le_mono_l _ _ (S (length (graph_names g)))) in Hu; lia. }
  split; [exact Hdone|split; [apply traverse_nodup; constructor|]].
  destruct (traverse_closed next _ [] [p] Hdone) as (_ & HS & HC);
    [intros v w []|].
  intros q; split.
  - intros Hq; destruct (traverse_sound next _ [] [p] q Hq) as [[]|(s & [<-|[]] & Hr)].
    exact Hr.
  - intros Hr.
    assert (Hreach : forall x y, clos_refl_trans string (edge next) x y ->
                     In x (fst t) -> In y (fst t)).
    { induction 1 as [x y Hxy | x | x y z _ IH1 _ IH2]; intros Hx; auto.
      apply (HC x y Hx Hxy). }
    apply (Hreach p q Hr), HS; left; reflexivity.
Qed.

Lemma findDependencies_correct (g : Graph) (p : string) :
  In p (graph_keys g) ->
  snd (dependencies_traversal g p) = [] /\
  exists deps, findDependencies g p = Resolved deps /\ NoDup deps /\
    (forall q, In q deps <-> q <> p /\ clos_trans string (depends_on g) p q).
Proof.
  intros Hp.
  destruct (traverse_from g (deps_of g) p (deps_of_in_names g) (deps_of_length g)
              (key_in_names g p Hp)) as (Hdone & Hnd & Hiff).
  split; [exact Hdone|].
  exists (remove string_dec p (fst (dependencies_traversal g p))).
  unfold findDependencies; destruct (in_dec string_dec p (graph_keys g)); [|contradiction].
  split; [reflexivity|split; [apply remove_nodup; exact Hnd|]].
  intros q; split.
  - intros Hq; apply in_remove in Hq as [Hq Hne]; apply Hiff in Hq.
    destruct (clos_rt_eq_or_t _ _ _ Hq) as [->|Ht]; [contradiction|].
    split; [exact Hne|exact Ht].
  - intros [Hne Ht]; apply in_in_remove; [exact Hne|].
    apply Hiff, clos_t_rt, Ht.
Qed.

Lemma findDependents_correct (g : Graph) (p : string) :
  In p (graph_keys g) ->
  snd (dependents_traversal g p) = [] /\
  exists dents, findDependents g p = Resolved dents /\ NoDup dents /\
    (forall q, In q dents <-> q <> p /\ clos_trans string (depends_on g) q p).
Proof.
  intros Hp.
  destruct (traverse_from g (dependents_of g) p (dependents_of_in_names g)
              (dependents_of_length g) (key_in_names g p Hp)) as (Hdone & Hnd & Hiff).
  split; [exact Hdone|].
  exists (remove string_dec p (fst (dependents_traversal g p))).
  unfold findDependents; destruct (in_dec string_dec p (graph_keys g)); [|contradiction].
  split; [reflexivity|split; [apply remove_nodup; exact Hnd|]].
  intros q; split.
  - intros Hq; apply in_remove in Hq as [Hq Hne]; apply Hiff in Hq.
    destruct (clos_rt_eq_or_t _ _ _ Hq) as [->|Ht]; [contradiction|].
    split; [exact Hne|].
    apply clos_t_transp in Ht.
    exact (clos_t_iff (fun a b => edge (dependents_of g) b a) (depends_on g) q p
             (fun a b => dependents_of_iff g b a) Ht).
  - intros [Hne Ht]; apply in_in_remove; [exact Hne|].
    apply Hiff, clos_t_rt.
    apply clos_t_transp in Ht.
    exact (clos_t_iff (fun a b => depends_on g b a) (edge (dependents_of g)) p q
             (fun a b => iff_sym (dependents_of_iff g a b)) Ht).
Qed.

(** C7: for every graph (diamonds and cycles included) and every project [p]
    of it, the traversal behind [findDependencies] terminates (its worklist is
    exhausted), and [findDependencies g p] resolves to a list without
    duplicates holding exactly the projects [p] reaches through one or more
    depends-on edges, other than [p] itself. *)
Theorem findDependencies_transitive_closure (g : Graph) (p : string) :
  In p (graph_keys g) ->
  snd (dependencies_traversal g p) = [] /\
  exists deps, findDependencies g p = Resolved deps /\ NoDup deps /\
    (forall q, In q deps <-> q <> p /\ clos_trans string (depends_on g) p q).
Proof. apply findDependencies_correct. Qed.

(** C8: for projects [p] and [q] of a graph, [q] is among the dependents of
    [p] exactly when [p] is among the dependencies of [q]. *)
Theorem findDependents_inverse (g : Graph) (p q : string) :
  In p (graph_keys g) -> In q (graph_keys g) ->
  exists dents deps,
    findDependents g p = Resolved dents /\ findDependencies g q = Resolved deps /\
    (In q dents <-> In p deps).
Proof.
  intros Hp Hq.
  destruct (findDependents_correct g p Hp) as (_ & dents & Hdents & _ & Hd).
  destruct (findDependencies_correct g q Hq) as (_ & deps & Hdeps & _ & Hs).
  exists dents, deps; split; [exact Hdents|split; [exact Hdeps|]].
  rewrite Hd, Hs; split; intros [Hne Ht]; split; auto.
Qed.

(** ** The pipeline runner *)

Lemma runPhases_entries (env : Env) (cfg : ShipConfig.t) :
  forall phases st x, In x (snd (runPhases env phases cfg st)) ->
  run_completed x = is_resolved (run_phase env (run_phase_of x) cfg (run_state x)).
Proof.
  induction phases as [|p rest IH]; intros st x Hx; simpl in Hx; [destruct Hx|].
  destruct (run_phase env p cfg st) as [st'|e] eqn:E.
  - destruct (runPhases env rest cfg st') as [r tr] eqn:Er; simpl in Hx.
    destruct Hx as [<-|Hx]; [simpl; rewrite E; reflexivity|].
    apply (IH st'); rewrite Er; exact Hx.
  - destruct Hx as [<-|[]]; simpl; rewrite E; reflexivity.
Qed.

(** Either every phase ran and completed, or the phases that ran are a prefix
    of the list ending at the one that failed. *)
Lemma runPhases_prefix (env : Env) (cfg : ShipConfig.t) :
  forall phases st,
  let '(r, tr) := runPhases env phases cfg st in
  (r = Resolved tt /\ map run_phase_of tr = phases /\ forallb run_completed tr = true) \/
  (exists e ok x post,
     r = Rejected e /\ tr = ok ++ [x] /\ run_completed x = false /\
     forallb run_completed ok = true /\
     phases = map run_phase_of ok ++ run_phase_of x :: post).
Proof.
  induction phases as [|p rest IH]; intros st; simpl; [left; auto|].
  destruct (run_phase env p cfg st) as [st'|e] eqn:E.
  - specialize (IH st'); destruct (runPhases env rest cfg st') as [r tr].
    destruct IH as [(-> & Hm & Hc) | (e & ok & x & post & -> & -> & Hx & Hok & Hp)].
    + left; simpl; rewrite Hm, Hc; auto.
    + right; exists e, (mkRun p st true :: ok), x, post; simpl.
      rewrite Hok, Hp; auto.
  - right; exists e, [], (mkRun p st false), rest; simpl; auto.
Qed.

Lemma runPhases_failed_entry (env : Env) (cfg : ShipConfig.t) phases st x :
  In x (snd (runPhases env phases cfg st)) -> run_completed x = false ->
  exists e ok post,
    fst (runPhases env phases cfg st) = Rejected e /\
    snd (runPhases env phases cfg st) = ok ++ [x] /\
    forallb run_completed ok = true /\
    phases = map run_phase_of ok ++ run_phase_of x :: post.
Proof.
  pose proof (runPhases_prefix env cfg phases st) as H.
  destruct (runPhases env phases cfg st) as [r tr]; simpl.
  intros Hx Hf; destruct H as [(_ & _ & Hc) | (e & ok & y & post & -> & -> & Hy & Hok & Hp)].
  - rewrite forallb_forall in Hc; rewrite (Hc x Hx) in Hf; discriminate.
  - apply in_app_or in Hx as [Hx|[<-|[]]].
    + rewrite forallb_forall in Hok; rewrite (Hok x Hx) in Hf; discriminate.
    + exists e, ok, post; auto.
Qed.

(** ** [shipIt] unfolded *)

Lemma shipIt_resolved (env : Env) options context cfg :
  prepareConfig env options context = Resolved cfg ->
  shipIt env options context =
    (Resolved {| success := is_resolved (fst (runPhases env (shipPhases options) cfg initial_state)) |},
     snd (runPhases env (shipPhases options) cfg initial_state)).
Proof.
  intros H; unfold shipIt; rewrite H.
  destruct (runPhases env (shipPhases options) cfg initial_state) as [[u|e] tr]; reflexivity.
Qed.

Lemma shipIt_rejected (env : Env) options context e :
  prepareConfig env options context = Rejected e ->
  shipIt env options context = (Rejected e, []).
Proof. intros H; unfold shipIt; rewrite H; reflexivity. Qed.

Lemma prepareConfig_maxWarnings (env : Env) options context cfg n :
  prepareConfig env options context = Resolved cfg ->
  ShipExecutorOptions.maxWarnings options = Some n ->
  ShipConfig.maxWarnings cfg = n.
Proof.
  unfold prepareConfig, settled_bind.
  destruct (env_createProjectGraphAsync env) as [g|e]; [|discriminate].
  destruct (single_project_fields g context) as [single|e]; [|discriminate].
  unfold new_ShipConfig; destruct (env_config_error env _); [discriminate|].
  intros H Hn; injection H as <-; simpl; rewrite Hn; reflexivity.
Qed.

Lemma shipPhases_standard options :
  ShipExecutorOptions.dryRun options <> Some true ->
  shipPhases options =
    [ClonePhase; CorruptionCheckPhase; CleanPhase; SyncPhase; VerifyRepoPhase;
     PostProcessPhase; PushPhase].
Proof.
  unfold shipPhases; destruct (ShipExecutorOptions.dryRun options) as [[|]|];
    [contradiction|reflexivity|reflexivity].
Qed.

Lemma shipIt_all_completed (env : Env) options context cfg :
  prepareConfig env options context = Resolved cfg ->
  forallb run_completed (snd (shipIt env options context)) = true ->
  fst (shipIt env options context) = Resolved {| success := true |} /\
  phases_run (snd (shipIt env options context)) = shipPhases options.
Proof.
  intros Hcfg; rewrite (shipIt_resolved env options context cfg Hcfg); cbn [fst snd].
  pose proof (runPhases_prefix env cfg (shipPhases options) initial_state) as H.
  destruct (runPhases env (shipPhases options) cfg initial_state) as [r tr]; cbn [fst snd].
  intros Hall.
  destruct H as [(-> & Hm & _) | (e & ok & x & post & _ & -> & Hx & _ & _)].
  - split; [reflexivity|exact Hm].
  - rewrite forallb_app in Hall; apply andb_prop in Hall as [_ Hall].
    simpl in Hall; rewrite Hx in Hall; discriminate.
Qed.

(** C1: a run that is not a dry run, whose configuration was built and in
    which every phase that ran completed, resolves to [{success: true}] after
    running the seven phases once each in the order Clone, CorruptionCheck,
    Clean, Sync, VerifyRepo, PostProcess, Push. *)
Theorem shipIt_standard_run (env : Env) options context cfg :
  ShipExecutorOptions.dryRun options <> Some true ->
  prepareConfig env options context = Resolved cfg ->
  forallb run_completed (snd (shipIt env options context)) = true ->
  fst (shipIt env options context) = Resolved {| success := true |} /\
  phases_run (snd (shipIt env options context)) =
    [ClonePhase; CorruptionCheckPhase; CleanPhase; SyncPhase; VerifyRepoPhase;
     PostProcessPhase; PushPhase].
Proof.
  intros Hdry Hcfg Hall.
  rewrite <- (shipPhases_standard options Hdry).
  apply (shipIt_all_completed env options context cfg Hcfg Hall).
Qed.

(** C2: with [dryRun = true] the pipeline is the six phases Clone to
    PostProcess, Push never runs, the phases that do run are a prefix of those
    six in order, and all six run when none fails; an absent [dryRun] gives
    the same pipeline as [dryRun = false], which ends in Push. *)
Theorem shipIt_dry_run (env : Env) options context :
  ShipExecutorOptions.dryRun options = Some true ->
  shipPhases options =
    [ClonePhase; CorruptionCheckPhase; CleanPhase; SyncPhase; VerifyRepoPhase;
     PostProcessPhase] /\
  ~ In PushPhase (phases_run (snd (shipIt env options context))) /\
  (exists rest,
     [ClonePhase; CorruptionCheckPhase; CleanPhase; SyncPhase; VerifyRepoPhase;
      PostProcessPhase] = phases_run (snd (shipIt env options context)) ++ rest) /\
  (is_resolved (prepareConfig env options context) = true ->
   forallb run_completed (snd (shipIt env options context)) = true ->
   phases_run (snd (shipIt env options context)) =
     [ClonePhase; CorruptionCheckPhase; CleanPhase; SyncPhase; VerifyRepoPhase;
      PostProcessPhase]) /\
  (forall o, ShipExecutorOptions.dryRun o = None ->
   shipPhases o = shipPhases (ShipExecutorOptions.mk (ShipExecutorOptions.repo o)
                                (ShipExecutorOptions.branch o)
                                (ShipExecutorOptions.maxWarnings o) (Some false)) /\
   shipPhases o =
     [ClonePhase; CorruptionCheckPhase; CleanPhase; SyncPhase; VerifyRepoPhase;
      PostProcessPhase; PushPhase]).
Proof.
  intros Hdry.
  assert (Hsix : shipPhases options =
    [ClonePhase; CorruptionCheckPhase; CleanPhase; SyncPhase; VerifyRepoPhase;
     PostProcessPhase]) by (unfold shipPhases; rewrite Hdry; reflexivity).
  assert (Hpre : exists rest, shipPhases options =
            phases_run (snd (shipIt env options context)) ++ rest).
  { destruct (prepareConfig env options context) as [cfg|e] eqn:Hcfg.
    - rewrite (shipIt_resolved env options context cfg Hcfg); cbn [fst snd].
      pose proof (runPhases_prefix env cfg (shipPhases options) initial_state) as H.
      destruct (runPhases env (shipPhases options) cfg initial_state) as [r tr]; cbn [fst snd].
      destruct H as [(_ & Hm & _) | (e & ok & x & post & _ & -> & _ & _ & Hp)].
      + exists []; rewrite app_nil_r; symmetry; exact Hm.
      + exists post; unfold phases_run; rewrite map_app, <- app_assoc; exact Hp.
    - rewrite (shipIt_rejected env options context e Hcfg); exists (shipPhases options);
        reflexivity. }
  split; [exact Hsix|split; [|split; [|split]]].
  - intros Hin; destruct Hpre as [rest Hpre]; rewrite Hsix in Hpre.
    assert (In PushPhase ([ClonePhase; CorruptionCheckPhase; CleanPhase; SyncPhase;
              VerifyRepoPhase; PostProcessPhase])) as Hc
      by (rewrite Hpre; apply in_or_app; left; exact Hin).
    simpl in Hc; intuition discriminate.
  - rewrite <- Hsix; exact Hpre.
  - intros Hok Hall; destruct (prepareConfig env options context) as [cfg|e] eqn:Hcfg;
      [|discriminate].
    rewrite <- Hsix; apply (shipIt_all_completed env options context cfg Hcfg Hall).
  - intros o Ho; unfold shipPhases; simpl; rewrite Ho; split; reflexivity.
Qed.

Lemma shipPhases_shape options :
  exists rest, shipPhases options = ClonePhase :: CorruptionCheckPhase :: rest /\
               ~ In CorruptionCheckPhase rest.
Proof.
  unfold shipPhases.
  destruct (ShipExecutorOptions.dryRun options) as [[|]|]; simpl;
    eexists; split; try reflexivity; simpl; intuition discriminate.
Qed.

Lemma shipIt_failed_phase (env : Env) options context x :
  In x (snd (shipIt env options context)) -> run_completed x = false ->
  fst (shipIt env options context) = Resolved {| success := false |} /\
  exists ok post,
     snd (shipIt env options context) = ok ++ [x] /\
     forallb run_completed ok = true /\
     shipPhases options = phases_run ok ++ run_phase_of x :: post.
Proof.
  destruct (prepareConfig env options context) as [cfg|e] eqn:Hcfg;
    [|rewrite (shipIt_rejected env options context e Hcfg); intros []].
  rewrite (shipIt_resolved env options context cfg Hcfg); cbn [fst snd].
  intros Hx Hf.
  destruct (runPhases_failed_entry env cfg _ _ x Hx Hf) as (e & ok & post & Hr & Htr & Hok & Hp).
  rewrite Hr, Htr; split; [reflexivity|exists ok, post; auto].
Qed.

Lemma phases_before_verify options pre post :
  shipPhases options = pre ++ VerifyRepoPhase :: post ->
  pre = [ClonePhase; CorruptionCheckPhase; CleanPhase; SyncPhase].
Proof.
  unfold shipPhases; intros H.
  destruct pre as [|a1 [|a2 [|a3 [|a4 [|a5 [|a6 pre]]]]]]; simpl in H;
    inversion H; subst; try reflexivity.
  destruct (ShipExecutorOptions.dryRun options) as [[|]|]; simpl in *;
    try discriminate;
    destruct pre as [|? [|? ?]]; simpl in *; discriminate.
Qed.

(** C3: if a phase of a run fails, the run resolves to [{success: false}],
    and the phases that ran are exactly the ones before it in the pipeline,
    all completed, then the failed one: nothing after it runs.  When the
    failed phase is CorruptionCheck, only Clone and CorruptionCheck ran. *)
Theorem shipIt_fail_fast (env : Env) options context x :
  In x (snd (shipIt env options context)) -> run_completed x = false ->
  fst (shipIt env options context) = Resolved {| success := false |} /\
  (exists ok post,
     snd (shipIt env options context) = ok ++ [x] /\
     forallb run_completed ok = true /\
     shipPhases options = phases_run ok ++ run_phase_of x :: post) /\
  (run_phase_of x = CorruptionCheckPhase ->
   phases_run (snd (shipIt env options context)) = [ClonePhase; CorruptionCheckPhase]).
Proof.
  intros Hx Hf.
  destruct (shipIt_failed_phase env options context x Hx Hf) as (Hr & ok & post & Htr & Hok & Hp).
  split; [exact Hr|split; [exists ok, post; auto|]].
  intros Hcc; rewrite Hcc in Hp; rewrite Htr.
  destruct (shipPhases_shape options) as (rest & Hs & Hnot); rewrite Hs in Hp.
  destruct ok as [|a [|b ok]]; simpl in Hp.
  - discriminate.
  - injection Hp as Ha _; unfold phases_run; simpl; rewrite <- Ha, Hcc; reflexivity.
  - injection Hp as _ _ Hrest; exfalso; apply Hnot; rewrite Hrest.
    apply in_or_app; right; left; reflexivity.
Qed.

(** C4: once the configuration is built, [shipIt] resolves to a record whose
    only field [success] is whether [runPhases] resolved, whatever error it
    rejected with; [success] is true exactly when every phase of the pipeline
    ran and completed, and false exactly when some phase failed. *)
Theorem shipIt_boolean_result (env : Env) options context cfg :
  prepareConfig env options context = Resolved cfg ->
  fst (shipIt env options context) =
    Resolved {| success := is_resolved (fst (runPhases env (shipPhases options) cfg initial_state)) |} /\
  (fst (shipIt env options context) = Resolved {| success := true |} <->
   phases_run (snd (shipIt env options context)) = shipPhases options /\
   forallb run_completed (snd (shipIt env options context)) = true) /\
  (fst (shipIt env options context) = Resolved {| success := false |} <->
   exists x, In x (snd (shipIt env options context)) /\ run_completed x = false).
Proof.
  intros Hcfg; rewrite (shipIt_resolved env options context cfg Hcfg); cbn [fst snd].
  split; [reflexivity|].
  pose proof (runPhases_prefix env cfg (shipPhases options) initial_state) as H.
  destruct (runPhases env (shipPhases options) cfg initial_state) as [r tr]; cbn [fst snd].
  destruct H as [(-> & Hm & Hc) | (e & ok & x & post & -> & -> & Hx & Hok & Hp)].
  - simpl; split; [split; auto|split; [discriminate|]].
    intros (x & Hin & Hf); rewrite forallb_forall in Hc; rewrite (Hc x Hin) in Hf;
      discriminate.
  - simpl; split; split.
    + discriminate.
    + intros [_ Hall]; rewrite forallb_app in Hall; apply andb_prop in Hall as [_ Hall].
      simpl in Hall; rewrite Hx in Hall; discriminate.
    + intros _; exists x; split; [apply in_or_app; right; left; reflexivity|exact Hx].
    + reflexivity.
Qed.

Lemma verifyRepo_entry (env : Env) cfg phases st0 st b :
  In (mkRun VerifyRepoPhase st b) (snd (runPhases env phases cfg st0)) ->
  (b = false <-> env_missing_required env st = true \/
                 ShipConfig.maxWarnings cfg < env_warnings env st).
Proof.
  intros Hin; pose proof (runPhases_entries env cfg phases st0 _ Hin) as H; simpl in H.
  subst b; unfold VerifyRepoPhase_run.
  destruct (env_missing_required env st); simpl; [split; auto|].
  destruct (Nat.ltb_spec (ShipConfig.maxWarnings cfg) (env_warnings env st)) as [Hlt|Hge];
    simpl; split; intros Hc; auto; try discriminate.
  destruct Hc as [Hc|Hc]; [discriminate|lia].
Qed.


(** C5 (as amended): in a run that reaches VerifyRepo, VerifyRepo fails
    exactly when the working copy it inspects lacks a required file or shows
    more warnings than [maxWarnings]; when it fails the run resolves to
    [{success: false}] and Push never runs.  With one warning,
    [maxWarnings = 0] always gives [{success: false}], and [maxWarnings = 1]
    gives [{success: true}] when every other phase completes. *)
Theorem shipIt_verify_repo_gate (env : Env) options context cfg :
  prepareConfig env options context = Resolved cfg ->
  (forall st b, In (mkRun VerifyRepoPhase st b) (snd (shipIt env options context)) ->
     (b = false <-> env_missing_required env st = true \/
                    ShipConfig.maxWarnings cfg < env_warnings env st) /\
     (b = false ->
        fst (shipIt env options context) = Resolved {| success := false |} /\
        ~ In PushPhase (phases_run (snd (shipIt env options context))))) /\
  ((forall st, env_warnings env st = 1) ->
   (forall st, env_missing_required env st = false) ->
   (ShipExecutorOptions.maxWarnings options = Some 0 ->
      fst (shipIt env options context) = Resolved {| success := false |}) /\
   (ShipExecutorOptions.maxWarnings options = Some 1 ->
    (forall p st, p <> VerifyRepoPhase -> is_resolved (env_phase env p cfg st) = true) ->
      fst (shipIt env options context) = Resolved {| success := true |})).
Proof.
  intros Hcfg; split.
  - intros st b Hin.
    assert (Hin' := Hin); rewrite (shipIt_resolved env options context cfg Hcfg) in Hin';
      cbn [snd] in Hin'.
    split; [exact (verifyRepo_entry env cfg _ _ st b Hin')|].
    intros ->.
    destruct (shipIt_failed_phase env options context _ Hin eq_refl)
      as (Hr & ok & post & Htr & _ & Hp).
    split; [exact Hr|].
    apply phases_before_verify in Hp.
    rewrite Htr; unfold phases_run in *; rewrite map_app, Hp; simpl.
    intuition discriminate.
  - intros Hw Hm; split.
    + intros H0.
      pose proof (prepareConfig_maxWarnings env options context cfg 0 Hcfg H0) as Hmw.
      rewrite (shipIt_resolved env options context cfg Hcfg); cbn [fst].
      pose proof (runPhases_entries env cfg (shipPhases options) initial_state) as He.
      pose proof (runPhases_prefix env cfg (shipPhases options) initial_state) as H.
      destruct (runPhases env (shipPhases options) cfg initial_state) as [r tr].
      cbn [fst snd] in *.
      destruct H as [(-> & Hmap & Hc) | (e & ok & x & post & -> & _ & _ & _ & _)];
        [|reflexivity].
      exfalso.
      assert (Hv : In VerifyRepoPhase (map run_phase_of tr))
        by (rewrite Hmap; unfold shipPhases; simpl; tauto).
      apply in_map_iff in Hv as (x & Hx & Hin).
      rewrite forallb_forall in Hc; specialize (Hc x Hin); rewrite (He x Hin), Hx in Hc.
      simpl in Hc; unfold VerifyRepoPhase_run in Hc; rewrite Hm, Hw, Hmw in Hc.
      discriminate.
    + intros H1 Hother.
      pose proof (prepareConfig_maxWarnings env options context cfg 1 Hcfg H1) as Hmw.
      apply (shipIt_all_completed env options context cfg Hcfg).
      rewrite (shipIt_resolved env options context cfg Hcfg); cbn [snd].
      apply forallb_forall; intros x Hin.
      rewrite (runPhases_entries env cfg _ _ x Hin).
      destruct (run_phase_of x) eqn:Ep; simpl;
        try (apply Hother; discriminate).
      unfold VerifyRepoPhase_run; rewrite Hm, Hw, Hmw; reflexivity.
Qed.

(** C5 as stated fails: the run below reaches VerifyRepo, which completes
    ([maxWarnings = 0], no warning, nothing missing), and the run still
    resolves to [{success: false}] because PostProcess fails afterwards. *)
Lemma verify_repo_iff_counterexample :
  let env := sample_env 0 (Some PostProcessPhase) in
  let options := sample_options (Some 0) None in
  let run := shipIt env options (sample_context (Some "A")) in
  In (mkRun VerifyRepoPhase initial_state true) (snd run) /\
  env_missing_required env initial_state = false /\
  env_warnings env initial_state <= 0 /\
  ShipExecutorOptions.maxWarnings options = Some 0 /\
  fst run = Resolved {| success := false |}.
Proof.
  vm_compute.
  split; [right; right; right; right; left; reflexivity|].
  repeat split; reflexivity.
Qed.

Lemma prepareConfig_steps (env : Env) options context cfg :
  prepareConfig env options context = Resolved cfg ->
  exists g single,
    env_createProjectGraphAsync env = Resolved g /\
    single_project_fields g context = Resolved single /\
    env_config_error env (shipConfigOptions options context single) = None /\
    ShipConfig.single cfg = single.
Proof.
  unfold prepareConfig, settled_bind.
  destruct (env_createProjectGraphAsync env) as [g|e] eqn:Eg; [|discriminate].
  destruct (single_project_fields g context) as [single|e] eqn:Es; [|discriminate].
  unfold new_ShipConfig; destruct (env_config_error env _) eqn:Ec; [discriminate|].
  intros H; injection H as <-; exists g, single; repeat split; assumption.
Qed.

(** C6: in the built configuration the single-project fields are all present
    exactly when the context names a project other than [""] and
    ["workspace"]: then [project] is that name, [projectRoot] its root in the
    workspace, [dependencies] and [dependents] what the resolver returned and
    [workspace] every project name; otherwise there is no such field at all
    (not a field holding an empty list). *)
Theorem shipConfig_single_project_fields (env : Env) options context cfg :
  prepareConfig env options context = Resolved cfg ->
  match ShipConfig.single cfg with
  | Some sp =>
      exists name g,
        ExecutorContext.projectName context = Some name /\
        name <> "" /\ name <> "workspace" /\
        env_createProjectGraphAsync env = Resolved g /\
        ShipConfig.project sp = name /\
        ShipConfig.projectRoot sp =
          option_map ExecutorContext.root_of
            (lookup_project name (ExecutorContext.projects context)) /\
        findDependencies g name = Resolved (ShipConfig.dependencies sp) /\
        findDependents g name = Resolved (ShipConfig.dependents sp) /\
        ShipConfig.workspace sp = findProjectNames (ExecutorContext.projects context)
  | None =>
      forall name, ExecutorContext.projectName context = Some name ->
      name = "" \/ name = "workspace"
  end.
Proof.
  intros Hcfg.
  destruct (prepareConfig_steps env options context cfg Hcfg)
    as (g & single & Hg & Hs & _ & ->).
  unfold single_project_fields in Hs.
  destruct (ExecutorContext.projectName context) as [name|] eqn:En.
  - unfold names_project in Hs.
    destruct (String.eqb name "") eqn:E1; destruct (String.eqb name "workspace") eqn:E2;
      simpl in Hs.
    + injection Hs as <-; intros n Hn; injection Hn as <-; left; apply String.eqb_eq, E1.
    + injection Hs as <-; intros n Hn; injection Hn as <-; left; apply String.eqb_eq, E1.
    + injection Hs as <-; intros n Hn; injection Hn as <-; right; apply String.eqb_eq, E2.
    + destruct (findDependencies g name) as [deps|e] eqn:Ed; simpl in Hs; [|discriminate].
      destruct (findDependents g name) as [dents|e] eqn:Et; simpl in Hs; [|discriminate].
      injection Hs as <-; simpl.
      exists name, g; repeat split; auto.
      * intros H; subst name; discriminate.
      * intros H; subst name; discriminate.
  - injection Hs as <-; intros n Hn; discriminate.
Qed.

(** C9: when the context names a project (not [""], not ["workspace"]) that
    the project graph does not hold, [shipIt] rejects with
    [ProjectNotFound] before any phase runs. *)
Theorem shipIt_project_not_found (env : Env) options context name g :
  ExecutorContext.projectName context = Some name ->
  name <> "" -> name <> "workspace" ->
  env_createProjectGraphAsync env = Resolved g ->
  ~ In name (graph_keys g) ->
  shipIt env options context = (Rejected (ProjectNotFound name), []).
Proof.
  intros En H1 H2 Hg Hnot.
  apply shipIt_rejected.
  unfold prepareConfig; rewrite Hg; simpl.
  unfold single_project_fields; rewrite En; unfold names_project.
  apply String.eqb_neq in H1, H2; rewrite H1, H2; simpl.
  unfold findDependencies; destruct (in_dec string_dec name (graph_keys g)); [contradiction|].
  reflexivity.
Qed.

(** C10: [shipIt] rejects exactly when a step before [runPhases] throws (the
    project graph, the resolver, or the [ShipConfig] constructor), with that
    error and with no phase run; once the configuration is built it always
    resolves to a [{success}] record. *)
Theorem shipIt_pre_pipeline_rejections (env : Env) options context :
  (forall e, fst (shipIt env options context) = Rejected e <->
             prepareConfig env options context = Rejected e) /\
  (forall e, prepareConfig env options context = Rejected e ->
             snd (shipIt env options context) = []) /\
  (forall e, env_createProjectGraphAsync env = Rejected e ->
             fst (shipIt env options context) = Rejected e) /\
  (forall g e, env_createProjectGraphAsync env = Resolved g ->
               single_project_fields g context = Rejected e ->
               fst (shipIt env options context) = Rejected e) /\
  (forall g single e, env_createProjectGraphAsync env = Resolved g ->
     single_project_fields g context = Resolved single ->
     env_config_error env (shipConfigOptions options context single) = Some e ->
     fst (shipIt env options context) = Rejected e) /\
  (forall cfg, prepareConfig env options context = Resolved cfg ->
     exists b, fst (shipIt env options context) = Resolved {| success := b |}).
Proof.
  assert (Hrej : forall e, prepareConfig env options context = Rejected e ->
                 shipIt env options context = (Rejected e, []))
    by (intros e; apply shipIt_rejected).
  split; [|split; [|split; [|split; [|split]]]].
  - intros e; destruct (prepareConfig env options context) as [cfg|e'] eqn:Hc.
    + rewrite (shipIt_resolved env options context cfg Hc); split; discriminate.
    + rewrite (shipIt_rejected env options context e' Hc); cbn [fst]; split; intros H; injection H as ->; reflexivity.
  - intros e He; rewrite (Hrej e He); reflexivity.
  - intros e Hg; rewrite (Hrej e); [reflexivity|].
    unfold prepareConfig; rewrite Hg; reflexivity.
  - intros g e Hg Hs; rewrite (Hrej e); [reflexivity|].
    unfold prepareConfig; rewrite Hg; simpl; rewrite Hs; reflexivity.
  - intros g single e Hg Hs He; rewrite (Hrej e); [reflexivity|].
    unfold prepareConfig; rewrite Hg; simpl; rewrite Hs; simpl.
    unfold new_ShipConfig; rewrite He; reflexivity.
  - intros cfg Hc; rewrite (shipIt_resolved env options context cfg Hc); eexists; reflexivity.
Qed.

(** ** Sample runs and witnesses *)

Example shipIt_sample_standard :
  shipIt (sample_env 0 None) (sample_options None None) (sample_context (Some "A")) =
  (Resolved {| success := true |},
   [mkRun ClonePhase [] true; mkRun CorruptionCheckPhase [] true; mkRun CleanPhase [] true;
    mkRun SyncPhase [] true; mkRun VerifyRepoPhase [] true; mkRun PostProcessPhase [] true;
    mkRun PushPhase [] true]).
Proof. reflexivity. Qed.

Example shipIt_sample_sentinel :
  option_map ShipConfig.single
    (match prepareConfig (sample_env 0 None) (sample_options None None)
             (sample_context (Some "workspace")) with
     | Resolved cfg => Some cfg
     | Rejected _ => None
     end) = Some None.
Proof. reflexivity. Qed.

Lemma shipIt_standard_run_witness :
  fst (shipIt (sample_env 0 None) (sample_options (Some 0) None) (sample_context (Some "A")))
    = Resolved {| success := true |} /\
  phases_run (snd (shipIt (sample_env 0 None) (sample_options (Some 0) None)
                     (sample_context (Some "A")))) =
    [ClonePhase; CorruptionCheckPhase; CleanPhase; SyncPhase; VerifyRepoPhase;
     PostProcessPhase; PushPhase].
Proof.
  eapply (shipIt_standard_run (sample_env 0 None) (sample_options (Some 0) None)
            (sample_context (Some "A"))).
  - discriminate.
  - reflexivity.
  - reflexivity.
Defined.

Lemma shipIt_dry_run_witness :
  ShipExecutorOptions.dryRun (sample_options None (Some true)) = Some true /\
  ~ In PushPhase (phases_run (snd (shipIt (sample_env 0 None) (sample_options None (Some true))
                                   (sample_context None)))).
Proof.
  split; [reflexivity|].
  apply (shipIt_dry_run (sample_env 0 None) (sample_options None (Some true))
           (sample_context None) eq_refl).
Defined.

Lemma shipIt_fail_fast_witness :
  phases_run (snd (shipIt (sample_env 0 (Some CorruptionCheckPhase)) (sample_options None None)
                     (sample_context (Some "A")))) = [ClonePhase; CorruptionCheckPhase].
Proof.
  apply (shipIt_fail_fast (sample_env 0 (Some CorruptionCheckPhase)) (sample_options None None)
           (sample_context (Some "A")) (mkRun CorruptionCheckPhase initial_state false)).
  - vm_compute; right; left; reflexivity.
  - reflexivity.
  - reflexivity.
Defined.

Lemma shipIt_boolean_result_witness :
  fst (shipIt (sample_env 0 (Some SyncPhase)) (sample_options None None) (sample_context None))
    = Resolved {| success := false |} <->
  exists x, In x (snd (shipIt (sample_env 0 (Some SyncPhase)) (sample_options None None)
                         (sample_context None))) /\ run_completed x = false.
Proof.
  eapply (shipIt_boolean_result (sample_env 0 (Some SyncPhase)) (sample_options None None)
            (sample_context None)).
  reflexivity.
Defined.

Lemma shipIt_verify_repo_gate_witness :
  fst (shipIt (sample_env 1 None) (sample_options (Some 0) None) (sample_context (Some "A")))
    = Resolved {| success := false |}.
Proof.
  eapply (shipIt_verify_repo_gate (sample_env 1 None) (sample_options (Some 0) None)
            (sample_context (Some "A"))).
  - reflexivity.
  - intros st; reflexivity.
  - intros st; reflexivity.
  - reflexivity.
Defined.

Lemma shipConfig_single_project_fields_witness :
  exists cfg,
    prepareConfig (sample_env 0 None) (sample_options None None) (sample_context (Some "B"))
      = Resolved cfg /\
    match ShipConfig.single cfg with
    | Some sp =>
        exists name g,
          ExecutorContext.projectName (sample_context (Some "B")) = Some name /\
          name <> "" /\ name <> "workspace" /\
          env_createProjectGraphAsync (sample_env 0 None) = Resolved g /\
          ShipConfig.project sp = name /\
          ShipConfig.projectRoot sp =
            option_map ExecutorContext.root_of
              (lookup_project name (ExecutorContext.projects (sample_context (Some "B")))) /\
          findDependencies g name = Resolved (ShipConfig.dependencies sp) /\
          findDependents g name = Resolved (ShipConfig.dependents sp) /\
          ShipConfig.workspace sp =
            findProjectNames (ExecutorContext.projects (sample_context (Some "B")))
    | None =>
        forall name, ExecutorContext.projectName (sample_context (Some "B")) = Some name ->
        name = "" \/ name = "workspace"
    end.
Proof.
  eexists; split; [reflexivity|].
  apply (shipConfig_single_project_fields (sample_env 0 None) (sample_options None None)
           (sample_context (Some "B"))).
  reflexivity.
Defined.

Lemma findDependencies_transitive_closure_witness :
  snd (dependencies_traversal cyclic_graph "A") = [] /\
  exists deps, findDependencies cyclic_graph "A" = Resolved deps /\ NoDup deps /\
    (forall q, In q deps <-> q <> "A" /\ clos_trans string (depends_on cyclic_graph) "A" q).
Proof.
  apply (findDependencies_transitive_closure cyclic_graph "A").
  simpl; left; reflexivity.
Defined.

Lemma findDependents_inverse_witness :
  exists dents deps,
    findDependents sample_graph "C" = Resolved dents /\
    findDependencies sample_graph "A" = Resolved deps /\
    (In "A" dents <-> In "C" deps).
Proof.
  apply (findDependents_inverse sample_graph "C" "A").
  - simpl; right; right; left; reflexivity.
  - simpl; left; reflexivity.
Defined.

Lemma shipIt_project_not_found_witness :
  shipIt (sample_env 0 None) (sample_options None None) (sample_context (Some "Z")) =
    (Rejected (ProjectNotFound "Z"), []).
Proof.
  apply (shipIt_project_not_found (sample_env 0 None) (sample_options None None)
           (sample_context (Some "Z")) "Z" sample_graph).
  - reflexivity.
  - discriminate.
  - discriminate.
  - reflexivity.
  - simpl; intuition discriminate.
Defined.

(** * Further properties of the code *)

(** ** [map.async]: identity, composition, rejection, commutation *)

(** [mapOkAsync] with a mapping that resolves to its argument gives back the
    settled input. *)
Theorem mapOkAsync_identity {I F : Type} (input : Settled (Result I F)) :
  mapOkAsync Resolved input = input.
Proof. destruct input as [[i|f]|e]; reflexivity. Qed.

(** Two [mapOkAsync] in a row are one [mapOkAsync] of the awaited composition. *)
Theorem mapOkAsync_compose {A B C F : Type} (f : A -> Settled B) (g : B -> Settled C)
    (input : Settled (Result A F)) :
  mapOkAsync g (mapOkAsync f input) = mapOkAsync (fun a => b <- f a ;; g b) input.
Proof.
  destruct input as [[a|e]|e]; simpl; [|reflexivity|reflexivity].
  destruct (f a) as [b|e]; simpl; [|reflexivity].
  destruct (g b); reflexivity.
Qed.

(** [mapFailureAsync] with a mapping that resolves to its argument gives back
    the settled input. *)
Theorem mapFailureAsync_identity {O F : Type} (input : Settled (Result O F)) :
  mapFailureAsync Resolved input = input.
Proof. destruct input as [[o|f]|e]; reflexivity. Qed.

(** Two [mapFailureAsync] in a row are one [mapFailureAsync] of the awaited
    composition. *)
Theorem mapFailureAsync_compose {O A B C : Type} (f : A -> Settled B) (g : B -> Settled C)
    (input : Settled (Result O A)) :
  mapFailureAsync g (mapFailureAsync f input) = mapFailureAsync (fun a => b <- f a ;; g b) input.
Proof.
  destruct input as [[o|a]|e]; simpl; [reflexivity| |reflexivity].
  destruct (f a) as [b|e]; simpl; [|reflexivity].
  destruct (g b); reflexivity.
Qed.

(** Mapping the success and mapping the failure commute. *)
Theorem mapOkAsync_mapFailureAsync_commute {A B E F : Type}
    (f : A -> Settled B) (g : E -> Settled F) (input : Settled (Result A E)) :
  mapFailureAsync g (mapOkAsync f input) = mapOkAsync f (mapFailureAsync g input).
Proof.
  destruct input as [[a|e]|x]; simpl.
  - destruct (f a); reflexivity.
  - destruct (g e); reflexivity.
  - reflexivity.
Qed.



(** ** [shipIt]: the phase list, the dry run, and the project graph *)

(** Running [l1 ++ l2] is running [l1] and, when it resolves, [l2] from the
    working copy it left, with both traces joined. *)
Lemma runPhases_app (env : Env) (l1 l2 : list Phase) (cfg : ShipConfig.t) (st : WorkState) :
  (exists e, fst (runPhases env l1 cfg st) = Rejected e /\
             runPhases env (l1 ++ l2) cfg st = runPhases env l1 cfg st) \/
  (fst (runPhases env l1 cfg st) = Resolved tt /\
   exists st', runPhases env (l1 ++ l2) cfg st =
               (fst (runPhases env l2 cfg st'),
                snd (runPhases env l1 cfg st) ++ snd (runPhases env l2 cfg st'))).
Proof.
  revert st; induction l1 as [|p l1 IH]; intros st.
  - right; split; [reflexivity|exists st].
    simpl; destruct (runPhases env l2 cfg st); reflexivity.
  - simpl; destruct (run_phase env p cfg st) as [st'|e].
    + destruct (IH st') as [[e [H1 H2]] | [H1 [st'' H2]]]; rewrite H2;
        destruct (runPhases env l1 cfg st') as [r tr]; simpl in *.
      * left; exists e; split; [exact H1|reflexivity].
      * right; split; [exact H1|exists st''; reflexivity].
    + left; exists e; split; reflexivity.
Qed.

(** Nothing [shipIt] does before [runPhases] reads [dryRun]. *)
Lemma prepareConfig_dryRun (env : Env) (o : ShipExecutorOptions.t)
    (c : ExecutorContext.t) (d : option bool) :
  prepareConfig env (with_dryRun o d) c = prepareConfig env o c.
Proof. reflexivity. Qed.

(** A dry run and a standard run of the same options: when the dry run
    succeeds, the standard run repeats its trace and then runs [Push], and
    succeeds exactly when [Push] completes; otherwise the standard run is the
    dry run, with the same result and trace. *)
Theorem shipIt_dry_run_prefix (env : Env) (o : ShipExecutorOptions.t) (c : ExecutorContext.t) :
  (fst (shipIt env (with_dryRun o (Some true)) c) = Resolved (mkResult true) ->
   exists x, snd (shipIt env (with_dryRun o None) c)
             = snd (shipIt env (with_dryRun o (Some true)) c) ++ [x] /\
           run_phase_of x = PushPhase /\
           fst (shipIt env (with_dryRun o None) c) = Resolved (mkResult (run_completed x))) /\
  (fst (shipIt env (with_dryRun o (Some true)) c) <> Resolved (mkResult true) ->
   shipIt env (with_dryRun o None) c = shipIt env (with_dryRun o (Some true)) c).
Proof.
  unfold shipIt; rewrite !prepareConfig_dryRun.
  destruct (prepareConfig env o c) as [cfg|e]; [|split; [discriminate|reflexivity]].
  set (six := [ClonePhase; CorruptionCheckPhase; CleanPhase; SyncPhase; VerifyRepoPhase;
               PostProcessPhase]).
  change (shipPhases (with_dryRun o None)) with (six ++ [PushPhase]).
  change (shipPhases (with_dryRun o (Some true))) with (six ++ []).
  rewrite app_nil_r.
  destruct (runPhases_app env six [PushPhase] cfg initial_state)
    as [[e [H1 H2]] | [H1 [st' H2]]]; rewrite H2.
  - destruct (runPhases env six cfg initial_state) as [r tr]; simpl in H1; subst r.
    split; [discriminate|reflexivity].
  - destruct (runPhases env six cfg initial_state) as [r tr]; simpl in H1; subst r.
    split; [|intros H; exfalso; apply H; reflexivity].
    intros _; simpl.
    destruct (env_phase env PushPhase cfg st') as [st''|e].
    + exists (mkRun PushPhase st' true); repeat split.
    + exists (mkRun PushPhase st' false); repeat split.
Qed.

(** The phases do not read the outcome of [createProjectGraphAsync]. *)
Lemma runPhases_with_projectGraph (env : Env) (graph : Settled Graph) (phases : list Phase)
    (cfg : ShipConfig.t) (st : WorkState) :
  runPhases (with_projectGraph env graph) phases cfg st = runPhases env phases cfg st.
Proof.
  revert st; induction phases as [|p phases IH]; intros st; [reflexivity|].
  cbn [runPhases].
  change (run_phase (with_projectGraph env graph)) with (run_phase env).
  destruct (run_phase env p cfg st) as [st'|e]; [rewrite IH|]; reflexivity.
Qed.

(** Shipping the whole workspace reads nothing of the project graph: any two
    graphs give the same result and trace. *)
Theorem shipIt_workspace_graph_independent (env : Env) (o : ShipExecutorOptions.t)
    (c : ExecutorContext.t) (g1 g2 : Graph)
    (Hws : names_project (ExecutorContext.projectName c) = false) :
  shipIt (with_projectGraph env (Resolved g1)) o c = shipIt (with_projectGraph env (Resolved g2)) o c.
Proof.
  assert (Hs : forall g, single_project_fields g c = Resolved None).
  { intros g; unfold single_project_fields.
    destruct (ExecutorContext.projectName c) as [name|]; [rewrite Hws|]; reflexivity. }
  unfold shipIt, prepareConfig.
  change (env_createProjectGraphAsync (with_projectGraph env (Resolved g1))) with (@Resolved Graph g1).
  change (env_createProjectGraphAsync (with_projectGraph env (Resolved g2))) with (@Resolved Graph g2).
  cbn [settled_bind]; rewrite !Hs; cbn [settled_bind].
  change (new_ShipConfig (with_projectGraph env (Resolved g1))) with (new_ShipConfig env).
  change (new_ShipConfig (with_projectGraph env (Resolved g2))) with (new_ShipConfig env).
  destruct (new_ShipConfig env (shipConfigOptions o c None)) as [cfg|e]; [|reflexivity].
  rewrite !runPhases_with_projectGraph; reflexivity.
Qed.

(** A project named ['workspace'] (or an empty name) ships like no project at all. *)
Theorem shipIt_workspace_name_is_no_project (env : Env) (o : ShipExecutorOptions.t)
    (root : string) (projects : list (string * ExecutorContext.ProjectConfiguration)) :
  shipIt env o (ExecutorContext.mk root (Some "workspace") projects)
  = shipIt env o (ExecutorContext.mk root None projects) /\
  shipIt env o (ExecutorContext.mk root (Some "") projects)
  = shipIt env o (ExecutorContext.mk root None projects).
Proof. split; reflexivity. Qed.

(** A project graph with a cycle or a missing name changes nothing when the
    workspace is shipped. *)
Lemma shipIt_workspace_graph_independent_witness :
  names_project (ExecutorContext.projectName (sample_context (Some "workspace"))) = false /\
  shipIt (with_projectGraph (sample_env 0 None) (Resolved sample_graph))
    (sample_options None None) (sample_context (Some "workspace"))
  = shipIt (with_projectGraph (sample_env 0 None) (Resolved cyclic_graph))
      (sample_options None None) (sample_context (Some "workspace")).
Proof.
  split; [reflexivity|].
  apply (shipIt_workspace_graph_independent (sample_env 0 None) (sample_options None None)
           (sample_context (Some "workspace")) sample_graph cyclic_graph).
  reflexivity.
Defined.

(** ** [withCommerceData]: paging, errors and mounting *)

Import CommerceProvider.

(** The first page of a [loadMore] past the current one: the products are
    appended, the page is the fetched one, [minPage] is the old [minPage] (or
    the old page when there was none), and [onDataLoaded] gets the merged data. *)
Theorem loadMore_forward_merge (props : Props) (loading : bool) (q : Z) (mp : option Z)
    (olds : list string) (p : Z) (dm : option Z) (news : list string) :
  (q < p)%Z ->
  loadMore props (Resolved (Some (mkPage (Some p) dm (Some news))))
    (mkState (Some (mkPage (Some q) mp (Some olds))) loading)
  = (Resolved (Some (mkPage (Some p) (Some (match mp with Some m => m | None => q end))
                       (Some (olds ++ news)))),
     mkState (Some (mkPage (Some p) (Some (match mp with Some m => m | None => q end))
                     (Some (olds ++ news)))) false,
     FetchData :: (if onDataLoaded props
                   then [DataLoaded (mkPage (Some p) (Some (match mp with Some m => m | None => q end))
                                       (Some (olds ++ news)))]
                   else [])).
Proof.
  intros Hlt.
  assert (E : (p >? q)%Z = true) by (apply Z.gtb_lt; lia).
  destruct mp as [m|]; unfold loadMore, loadMore_onData; cbn; rewrite E; reflexivity.
Qed.

(** A page before [minPage]: the products are prepended, [minPage] becomes the
    fetched page and the page stays the current one. *)
Theorem loadMore_backward_merge (props : Props) (loading : bool) (q : Z) (mp : option Z)
    (olds : list string) (p : Z) (dm : option Z) (news : list string) :
  (p <= q)%Z -> (p < match mp with Some m => m | None => q end)%Z ->
  loadMore props (Resolved (Some (mkPage (Some p) dm (Some news))))
    (mkState (Some (mkPage (Some q) mp (Some olds))) loading)
  = (Resolved (Some (mkPage (Some q) (Some p) (Some (news ++ olds)))),
     mkState (Some (mkPage (Some q) (Some p) (Some (news ++ olds)))) false,
     FetchData :: (if onDataLoaded props
                   then [DataLoaded (mkPage (Some q) (Some p) (Some (news ++ olds)))]
                   else [])).
Proof.
  intros Hle Hlt.
  assert (E1 : (p >? q)%Z = false) by (rewrite Z.gtb_ltb; apply Z.ltb_ge; lia).
  destruct mp as [m|]; unfold loadMore, loadMore_onData; cbn; rewrite E1.
  - assert (E2 : (p <? m)%Z = true) by (apply Z.ltb_lt; lia); rewrite E2; reflexivity.
  - assert (E2 : (p <? q)%Z = true) by (apply Z.ltb_lt; lia); rewrite E2; reflexivity.
Qed.

(** A page inside the loaded window changes no products and calls nothing: the
    component stays loading, and only the state's [minPage] is filled in. *)
Theorem loadMore_inside_window_stays_loading (props : Props) (loading : bool) (q : Z)
    (mp : option Z) (olds : option (list string)) (p : Z) (dm : option Z)
    (news : option (list string)) :
  (match mp with Some m => m | None => q end <= p <= q)%Z ->
  loadMore props (Resolved (Some (mkPage (Some p) dm news)))
    (mkState (Some (mkPage (Some q) mp olds)) loading)
  = (Resolved (Some (mkPage (Some p) (Some (match mp with Some m => m | None => q end)) news)),
     mkState (Some (mkPage (Some q) (Some (match mp with Some m => m | None => q end)) olds)) true,
     [FetchData]).
Proof.
  intros Hin.
  assert (E1 : (p >? q)%Z = false) by (rewrite Z.gtb_ltb; apply Z.ltb_ge; lia).
  destruct mp as [m|]; unfold loadMore, loadMore_onData; cbn; rewrite E1.
  - assert (E2 : (p <? m)%Z = false) by (apply Z.ltb_ge; lia); rewrite E2; reflexivity.
  - assert (E2 : (p <? q)%Z = false) by (apply Z.ltb_ge; lia); rewrite E2; reflexivity.
Qed.

(** Whatever page a [loadMore] fetches, loaded data whose [minPage] (when set)
    is at most its page keeps a window [minPage <= page] with both ends set. *)
Theorem loadMore_keeps_window (props : Props) (st : State) (q : Z) (mp : option Z)
    (olds : option (list string)) (p : Z) (dm : option Z) (news : option (list string)) :
  commerceData st = Some (mkPage (Some q) mp olds) ->
  (forall m, mp = Some m -> (m <= q)%Z) ->
  exists cd', commerceData (snd (fst (loadMore props (Resolved (Some (mkPage (Some p) dm news))) st)))
              = Some cd' /\ window_ok cd'.
Proof.
  destruct st as [cdo l]; cbn [commerceData]; intros -> Hm.
  unfold loadMore, loadMore_onData; cbn.
  assert (Hm' : (match mp with Some m => m | None => q end <= q)%Z)
    by (destruct mp as [m|]; [apply Hm; reflexivity|lia]).
  destruct mp as [m|]; destruct olds, news; cbn;
    repeat match goal with |- context [if ?b then _ else _] => destruct b eqn:? end; cbn;
    (eexists; split; [reflexivity|]; eexists _, _; split; [reflexivity|split; [reflexivity|]]);
    rewrite ?Z.gtb_ltb, ?Z.ltb_lt, ?Z.ltb_ge in *; lia.
Qed.

(** A rejected fetch in [loadMore] keeps the loaded data, ends loading, calls
    [onDataError] (when given) and then [console.error], and rejects the
    promise [loadMore] returns with the same error. *)
Theorem loadMore_rejected (props : Props) (st : State) (e : Exn) :
  loadMore props (Rejected e) st =
  (Rejected e, mkState (commerceData st) false,
   FetchData :: (if onDataError props then [DataError e] else []) ++ [ConsoleError e]).
Proof. reflexivity. Qed.

(** A page past the current one while the loaded data has no [products]
    array: the spread throws, the error is reported as a loading error and the
    data is left unmerged, yet the promise [loadMore] returns resolves. *)
Theorem loadMore_spread_error_resolves (props : Props) (loading : bool) (q : Z) (mp : option Z)
    (p : Z) (dm : option Z) (news : option (list string)) :
  (q < p)%Z ->
  loadMore props (Resolved (Some (mkPage (Some p) dm news)))
    (mkState (Some (mkPage (Some q) mp None)) loading)
  = (Resolved (Some (mkPage (Some p) (Some (match mp with Some m => m | None => q end)) news)),
     mkState (Some (mkPage (Some q) (Some (match mp with Some m => m | None => q end)) None)) false,
     FetchData :: (if onDataError props then [DataError (Thrown "TypeError")] else [])
       ++ [ConsoleError (Thrown "TypeError")]).
Proof.
  intros Hlt.
  assert (E : (p >? q)%Z = true) by (apply Z.gtb_lt; lia).
  destruct mp as [m|]; unfold loadMore, loadMore_onData; cbn; rewrite E; reflexivity.
Qed.

(** With no loaded data, or a fetch that resolves to nothing, [loadMore]
    merges nothing and calls nothing after [fetchData], and the component is
    left loading. *)
Theorem loadMore_nothing_to_merge (props : Props) (st : State) (data : option PageData) :
  commerceData st = None \/ data = None ->
  loadMore props (Resolved data) st = (Resolved data, mkState (commerceData st) true, [FetchData]).
Proof.
  destruct st as [cdo l]; cbn [commerceData]; intros H.
  unfold loadMore, loadMore_onData; cbn [commerceData].
  destruct H as [->| ->]; [destruct data|destruct cdo]; reflexivity.
Qed.

(** [loadData] with data given never calls [fetchData], whatever the fetch
    would do: it stores the data and ends loading. *)
Theorem loadData_given_never_fetches (props : Props) (f1 f2 : Settled (option PageData))
    (d : PageData) (st : State) :
  loadData props f1 (Some d) st = loadData props f2 (Some d) st /\
  fst (loadData props f1 (Some d) st) = mkState (Some d) false /\
  ~ In FetchData (snd (loadData props f1 (Some d) st)).
Proof.
  cbn; repeat split; destruct (onDataLoaded props); cbn; intuition discriminate.
Qed.

(** A fetch that resolves to nothing drops the data loaded before, and
    [onDataLoaded] is not called. *)
Theorem loadData_fetched_nothing_clears (props : Props) (st : State) :
  loadData props (Resolved None) None st = (mkState None false, [FetchData]).
Proof. reflexivity. Qed.

(** On mount the component fetches exactly when it has no initial data. *)
Theorem componentDidMount_fetches_iff (props : Props) (fetched : Settled (option PageData))
    (init : option PageData) :
  In FetchData (snd (componentDidMount props fetched (initialState init))) <-> init = None.
Proof.
  destruct init as [d|]; cbn.
  - destruct (onDataLoaded props); cbn; intuition discriminate.
  - split; [reflexivity|intros _].
    destruct fetched as [[d|]|e]; cbn; [destruct (onDataLoaded props)| |]; cbn; left; reflexivity.
Qed.

(** [onDataLoaded] only ever receives the data the component holds once the
    step is over: in [loadMore], [loadData] and [componentDidMount]. *)
Theorem onDataLoaded_matches_state (props : Props) (fetched : Settled (option PageData))
    (data : option PageData) (st : State) (d : PageData) :
  (In (DataLoaded d) (snd (loadMore props fetched st)) ->
   commerceData (snd (fst (loadMore props fetched st))) = Some d) /\
  (In (DataLoaded d) (snd (loadData props fetched data st)) ->
   commerceData (fst (loadData props fetched data st)) = Some d) /\
  (In (DataLoaded d) (snd (componentDidMount props fetched st)) ->
   commerceData (fst (componentDidMount props fetched st)) = Some d).
Proof.
  destruct st as [cdo l].
  assert (Hset : forall x st0, In (DataLoaded d) (snd (setData props x st0)) ->
                          commerceData (fst (setData props x st0)) = Some d).
  { intros [x|] st0; cbn; [destruct (onDataLoaded props)|]; cbn; intuition congruence. }
  assert (Hld : forall x, In (DataLoaded d) (snd (loadData props fetched x (mkState cdo l))) ->
                     commerceData (fst (loadData props fetched x (mkState cdo l))) = Some d).
  { intros [x|]; [apply Hset|].
    destruct fetched as [y|e]; cbn.
    - destruct y as [y|]; cbn; [destruct (onDataLoaded props)|]; cbn; intuition congruence.
    - destruct (onDataError props); cbn; intuition discriminate. }
  split; [|split; [apply Hld|]].
  - destruct fetched as [[dd|]|e]; unfold loadMore, loadMore_onData; cbn [commerceData].
    + destruct cdo as [cd|]; [|cbn; intuition discriminate].
      destruct dd as [pd md xd], cd as [pc mc xc]; destruct pd, pc, mc, xd, xc; cbn;
        repeat match goal with |- context [if ?b then _ else _] => destruct b end; cbn;
        try destruct (onDataLoaded props); try destruct (onDataError props); cbn;
        intuition congruence.
    + cbn; intuition discriminate.
    + cbn; destruct (onDataError props); cbn; intuition discriminate.
  - unfold componentDidMount; cbn [commerceData]; destruct cdo as [cd|]; [|apply Hld].
    cbn; destruct (onDataLoaded props); cbn; intuition congruence.
Qed.

(** ** [TabbedContainer]: the tab row and the shown content *)

Import TabbedContainer.

Lemma renderTabs_from_nth {E : Type} (sel : Z) (tabs : list (Tab E)) :
  forall idx n, nth_error (renderTabs_from sel idx tabs) n =
  option_map (fun t => if Z.eqb sel (idx + Z.of_nat n) then activeTab t else tab t)
    (nth_error tabs n).
Proof.
  induction tabs as [|t tabs IH]; intros idx [|n]; cbn [renderTabs_from nth_error]; try reflexivity.
  - rewrite Z.add_0_r; reflexivity.
  - rewrite IH; replace (idx + 1 + Z.of_nat n)%Z with (idx + Z.of_nat (S n))%Z by lia.
    reflexivity.
Qed.

Lemma renderTabs_from_inactive {E : Type} (sel : Z) (tabs : list (Tab E)) :
  forall idx, (sel < idx \/ idx + Z.of_nat (length tabs) <= sel)%Z ->
  renderTabs_from sel idx tabs = map tab tabs.
Proof.
  induction tabs as [|t tabs IH]; intros idx H; cbn [renderTabs_from map]; [reflexivity|].
  cbn [length] in H.
  assert (E1 : Z.eqb sel idx = false) by (apply Z.eqb_neq; lia).
  rewrite E1, IH; [reflexivity|lia].
Qed.

Lemma renderTabs_from_split {E : Type} (tabs : list (Tab E)) :
  forall idx k t, nth_error tabs k = Some t ->
  renderTabs_from (idx + Z.of_nat k) idx tabs
  = firstn k (map tab tabs) ++ activeTab t :: skipn (S k) (map tab tabs).
Proof.
  induction tabs as [|a tabs IH]; intros idx [|k] t H; cbn in H; try discriminate.
  - injection H as <-; cbn [renderTabs_from firstn skipn map app].
    rewrite Z.add_0_r, Z.eqb_refl, renderTabs_from_inactive; [reflexivity|lia].
  - cbn [renderTabs_from firstn skipn map app].
    assert (E1 : Z.eqb (idx + Z.of_nat (S k)) idx = false) by (apply Z.eqb_neq; lia).
    rewrite E1; replace (idx + Z.of_nat (S k))%Z with (idx + 1 + Z.of_nat k)%Z by lia.
    rewrite (IH (idx + 1)%Z k t H); reflexivity.
Qed.

(** The tab row has one element per tab: the active element at the selected
    index, the plain one everywhere else. *)
Theorem renderTabs_nth {E : Type} (sel : Z) (tabs : list (Tab E)) (n : nat) :
  length (renderTabs sel tabs) = length tabs /\
  nth_error (renderTabs sel tabs) n =
  option_map (fun t => if Z.eqb sel (Z.of_nat n) then activeTab t else tab t) (nth_error tabs n).
Proof.
  split.
  - unfold renderTabs; generalize 0%Z; induction tabs as [|t tabs IH]; intros idx;
      cbn [renderTabs_from length]; [reflexivity|rewrite IH; reflexivity].
  - unfold renderTabs; rewrite renderTabs_from_nth; reflexivity.
Qed.

(** Some content is shown exactly when the selected index is a tab's. *)
Theorem content_shown_iff {E : Type} (sel : Z) (tabs : list (Tab E)) :
  (exists x, content sel tabs = Some x) <-> (0 <= sel < Z.of_nat (length tabs))%Z.
Proof.
  unfold content; destruct (Z.ltb_spec sel 0) as [Hneg|Hnn].
  - split; [intros [x Hx]; discriminate|lia].
  - destruct (nth_error tabs (Z.to_nat sel)) as [t|] eqn:Hn; cbn.
    + split; [intros _|intros _; exists (renderContent t); reflexivity].
      assert (Hl : Z.to_nat sel < length tabs) by (apply nth_error_Some; congruence); lia.
    + split; [intros [x Hx]; discriminate|intros H].
      apply nth_error_None in Hn; lia.
Qed.

(** An index outside the tabs (a negative or too large [initialIndex]) shows
    no active tab and no content, without an error. *)
Theorem render_out_of_range {E : Type} (sel : Z) (tabs : list (Tab E)) :
  ~ (0 <= sel < Z.of_nat (length tabs))%Z ->
  render sel tabs = (map tab tabs, None).
Proof.
  intros H; unfold render, renderTabs; rewrite renderTabs_from_inactive by lia.
  destruct (content sel tabs) as [x|] eqn:Hc; [|reflexivity].
  exfalso; apply H, content_shown_iff; exists x; exact Hc.
Qed.

(** Without [initialIndex] the first tab is active and its content shown. *)
Theorem render_initial_first_tab {E : Type} (t : Tab E) (ts : list (Tab E)) :
  render (initialSelectedIndex None) (t :: ts) = (activeTab t :: map tab ts, Some (renderContent t)).
Proof.
  unfold render, renderTabs, content; cbn [initialSelectedIndex renderTabs_from].
  rewrite Z.eqb_refl, renderTabs_from_inactive by lia; reflexivity.
Qed.

(** After [selectTab(i)] for a tab's index, [onTabSwitch] (when given) is
    called once with [i], and the render shows tab [i] active, every other tab
    plain, and tab [i]'s content. *)
Theorem selectTab_render {E : Type} (hasOnTabSwitch : bool) (i sel : Z) (tabs : list (Tab E)) :
  (0 <= i < Z.of_nat (length tabs))%Z ->
  snd (selectTab hasOnTabSwitch i sel) = (if hasOnTabSwitch then [i] else []) /\
  exists t, nth_error tabs (Z.to_nat i) = Some t /\
    render (fst (selectTab hasOnTabSwitch i sel)) tabs
    = (firstn (Z.to_nat i) (map tab tabs) ++ activeTab t :: skipn (S (Z.to_nat i)) (map tab tabs),
       Some (renderContent t)).
Proof.
  intros H; split; [reflexivity|]; cbn [fst selectTab].
  destruct (nth_error tabs (Z.to_nat i)) as [t|] eqn:Hn;
    [|apply nth_error_None in Hn; lia].
  exists t; split; [reflexivity|].
  unfold render, renderTabs, content.
  replace i with (0 + Z.of_nat (Z.to_nat i))%Z at 1 by lia.
  rewrite (renderTabs_from_split tabs 0 (Z.to_nat i) t Hn).
  destruct (Z.ltb_spec i 0); [lia|]; rewrite Hn; reflexivity.
Qed.

(** ** [SerializableImagePlaceholder]: when the image is pressable *)

(** The image is wrapped in a touchable exactly when [onPress] is given or
    [href] is a nonempty string. *)
Theorem image_plain_iff (props : SerializableImagePlaceholder.Props) :
  SerializableImagePlaceholder.render props = SerializableImagePlaceholder.PlainImage <->
  SerializableImagePlaceholder.onPress props = false /\
  SerializableImagePlaceholder.truthy (SerializableImagePlaceholder.href props) = false.
Proof.
  unfold SerializableImagePlaceholder.render.
  destruct (SerializableImagePlaceholder.truthy (SerializableImagePlaceholder.href props)),
    (SerializableImagePlaceholder.onPress props); cbn; intuition discriminate.
Qed.

(** A press on a wrapped image is never a no-op: it does exactly one thing. *)
Theorem image_press_one_effect (props : SerializableImagePlaceholder.Props)
    (effects : list SerializableImagePlaceholder.Effect) :
  SerializableImagePlaceholder.render props = SerializableImagePlaceholder.Touchable effects ->
  exists effect, effects = [effect].
Proof.
  destruct props as [[|] [h|]]; unfold SerializableImagePlaceholder.render; cbn;
    try destruct (String.eqb h ""); cbn; try discriminate;
    intros H; injection H as <-; eexists; reflexivity.
Qed.

(** A given [onPress] takes the press, with [href] as it is (even absent); the
    navigator opens [href] only without [onPress]. *)
Theorem image_press_target (h : option string) (s : string) :
  SerializableImagePlaceholder.render (SerializableImagePlaceholder.mkProps true h)
  = SerializableImagePlaceholder.Touchable [SerializableImagePlaceholder.OnPressCalled h] /\
  SerializableImagePlaceholder.render (SerializableImagePlaceholder.mkProps false (Some s))
  = (if String.eqb s "" then SerializableImagePlaceholder.PlainImage
     else SerializableImagePlaceholder.Touchable [SerializableImagePlaceholder.NavigatorOpened s]).
Proof.
  unfold SerializableImagePlaceholder.render; cbn.
  split; [destruct h as [h|]; cbn; [destruct (String.eqb h "")|]; reflexivity|].
  destruct (String.eqb s ""); reflexivity.
Qed.

(** ** Witnesses of the preconditions above *)

(** Page 2 after page 1 is appended. *)
Lemma loadMore_forward_merge_witness :
  (1 < 2)%Z /\
  loadMore (mkProps true true) (Resolved (Some (mkPage (Some 2%Z) None (Some ["p3"; "p4"]))))
    (mkState (Some (mkPage (Some 1%Z) None (Some ["p1"; "p2"]))) true)
  = (Resolved (Some (mkPage (Some 2%Z) (Some 1%Z) (Some ["p1"; "p2"; "p3"; "p4"]))),
     mkState (Some (mkPage (Some 2%Z) (Some 1%Z) (Some ["p1"; "p2"; "p3"; "p4"]))) false,
     [FetchData; DataLoaded (mkPage (Some 2%Z) (Some 1%Z) (Some ["p1"; "p2"; "p3"; "p4"]))]).
Proof.
  split; [lia|].
  apply (loadMore_forward_merge (mkProps true true) true 1 None ["p1"; "p2"] 2 None ["p3"; "p4"]).
  lia.
Defined.

(** Page 1 before the window of pages 2 to 3 is prepended. *)
Lemma loadMore_backward_merge_witness :
  (1 <= 3)%Z /\ (1 < 2)%Z /\
  loadMore (mkProps false false) (Resolved (Some (mkPage (Some 1%Z) None (Some ["p1"]))))
    (mkState (Some (mkPage (Some 3%Z) (Some 2%Z) (Some ["p2"; "p3"]))) true)
  = (Resolved (Some (mkPage (Some 3%Z) (Some 1%Z) (Some ["p1"; "p2"; "p3"]))),
     mkState (Some (mkPage (Some 3%Z) (Some 1%Z) (Some ["p1"; "p2"; "p3"]))) false,
     [FetchData]).
Proof.
  split; [lia|split; [lia|]].
  apply (loadMore_backward_merge (mkProps false false) true 3 (Some 2%Z) ["p2"; "p3"]
           1 None ["p1"]); lia.
Defined.

(** Page 2 inside the window of pages 1 to 3 leaves the component loading. *)
Lemma loadMore_inside_window_stays_loading_witness :
  (1 <= 2 <= 3)%Z /\
  loadMore (mkProps true true) (Resolved (Some (mkPage (Some 2%Z) None (Some ["p2"]))))
    (mkState (Some (mkPage (Some 3%Z) (Some 1%Z) (Some ["p1"; "p2"; "p3"]))) false)
  = (Resolved (Some (mkPage (Some 2%Z) (Some 1%Z) (Some ["p2"]))),
     mkState (Some (mkPage (Some 3%Z) (Some 1%Z) (Some ["p1"; "p2"; "p3"]))) true,
     [FetchData]).
Proof.
  split; [lia|].
  apply (loadMore_inside_window_stays_loading (mkProps true true) false 3 (Some 1%Z)
           (Some ["p1"; "p2"; "p3"]) 2 None (Some ["p2"])); lia.
Defined.

(** Data loaded without a [minPage] gets a window on the next page. *)
Lemma loadMore_keeps_window_witness :
  commerceData (mkState (Some (mkPage (Some 3%Z) None (Some ["p3"]))) false)
    = Some (mkPage (Some 3%Z) None (Some ["p3"])) /\
  (forall m, (None : option Z) = Some m -> (m <= 3)%Z) /\
  exists cd', commerceData (snd (fst (loadMore (mkProps true false)
                (Resolved (Some (mkPage (Some 7%Z) None (Some ["p7"]))))
                (mkState (Some (mkPage (Some 3%Z) None (Some ["p3"]))) false)))) = Some cd' /\
              window_ok cd'.
Proof.
  split; [reflexivity|split; [intros m H; discriminate|]].
  apply (loadMore_keeps_window (mkProps true false)
           (mkState (Some (mkPage (Some 3%Z) None (Some ["p3"]))) false) 3 None (Some ["p3"])
           7 None (Some ["p7"])); [reflexivity|intros m H; discriminate].
Defined.

(** Loaded data without products: the next page reports a [TypeError] and
    [loadMore] still resolves. *)
Lemma loadMore_spread_error_resolves_witness :
  (1 < 2)%Z /\
  loadMore (mkProps true true) (Resolved (Some (mkPage (Some 2%Z) None (Some ["p2"]))))
    (mkState (Some (mkPage (Some 1%Z) None None)) true)
  = (Resolved (Some (mkPage (Some 2%Z) (Some 1%Z) (Some ["p2"]))),
     mkState (Some (mkPage (Some 1%Z) (Some 1%Z) None)) false,
     [FetchData; DataError (Thrown "TypeError"); ConsoleError (Thrown "TypeError")]).
Proof.
  split; [lia|].
  apply (loadMore_spread_error_resolves (mkProps true true) true 1 None 2 None (Some ["p2"])).
  lia.
Defined.

(** [loadMore] before any data is loaded. *)
Lemma loadMore_nothing_to_merge_witness :
  (commerceData (initialState None) = None \/
   Some (mkPage (Some 1%Z) None (Some ["p1"])) = None) /\
  loadMore (mkProps true true) (Resolved (Some (mkPage (Some 1%Z) None (Some ["p1"]))))
    (initialState None)
  = (Resolved (Some (mkPage (Some 1%Z) None (Some ["p1"]))), mkState None true, [FetchData]).
Proof.
  split; [left; reflexivity|].
  apply (loadMore_nothing_to_merge (mkProps true true) (initialState None)
           (Some (mkPage (Some 1%Z) None (Some ["p1"])))).
  left; reflexivity.
Defined.

(** [initialIndex = -1] over two tabs. *)
Lemma render_out_of_range_witness :
  ~ (0 <= -1 < Z.of_nat (length [mkTab 1 2 3; mkTab 4 5 6]))%Z /\
  render (-1)%Z [mkTab 1 2 3; mkTab 4 5 6] = ([1; 4], None).
Proof.
  split; [cbn; lia|].
  apply (render_out_of_range (-1)%Z [mkTab 1 2 3; mkTab 4 5 6]); cbn; lia.
Defined.

(** Selecting the second of three tabs. *)
Lemma selectTab_render_witness :
  (0 <= 1 < Z.of_nat (length [mkTab 1 2 3; mkTab 4 5 6; mkTab 7 8 9]))%Z /\
  snd (selectTab true 1%Z 0%Z) = [1%Z] /\
  exists t, nth_error [mkTab 1 2 3; mkTab 4 5 6; mkTab 7 8 9] (Z.to_nat 1) = Some t /\
    render (fst (selectTab true 1%Z 0%Z)) [mkTab 1 2 3; mkTab 4 5 6; mkTab 7 8 9]
    = ([1; activeTab t; 7], Some (renderContent t)).
Proof.
  split; [cbn; lia|].
  apply (selectTab_render true 1%Z 0%Z [mkTab 1 2 3; mkTab 4 5 6; mkTab 7 8 9]); cbn; lia.
Defined.

(** An image with only an [href] opens it on a press. *)
Lemma image_press_one_effect_witness :
  SerializableImagePlaceholder.render
    (SerializableImagePlaceholder.mkProps false (Some "https://example.com/p"))
  = SerializableImagePlaceholder.Touchable
      [SerializableImagePlaceholder.NavigatorOpened "https://example.com/p"] /\
  exists effect, [SerializableImagePlaceholder.NavigatorOpened "https://example.com/p"] = [effect].
Proof.
  split; [reflexivity|].
  apply (image_press_one_effect
           (SerializableImagePlaceholder.mkProps false (Some "https://example.com/p"))).
  reflexivity.
Defined.
